(** * creative-mongodb-queue: a shallow embedding of [queue.js]

    The queue of [src/queue.js] keeps its jobs as documents of one MongoDB
    collection and drives them with four store calls: [insertMany],
    [insertOne], [findOneAndUpdate] and [updateOne].  This file models

    - a document with the six fields the code reads and writes,
    - a collection as the list of its documents in natural (insertion) order,
      with the unique sparse index on [ack] that [Queue.connect] builds,
    - the database as a finite map from collection names to collections, so
      that a queue and its dead-letter queue may or may not share one,
    - the methods of [class Queue], by explicit state passing.

    Dates are milliseconds since the epoch ([Z]); [_plusSecs] adds seconds.
    The two sources of nondeterminism of the code, the clock ([_now]) and the
    random lock token ([_ack]), are read from an environment that is a
    parameter of every statement.  The readings one call of [add], [get],
    [ping] or [ack] takes for its query and for the date it writes are taken
    as one instant.  [get], which calls itself after a dead-letter move,
    reads the clock and draws a token once per call, so both may change from
    one recursive call to the next.  [scheduleAt] and [scheduleRecurring]
    read the clock themselves and then call [add], which reads it again:
    they take two readings.  Tokens are arbitrary strings: when a token
    collides with one already stored, the unique index refuses the write and
    the method fails with [DuplicateKey].  The driver refuses an empty batch:
    [insertMany] of no document fails with [EmptyBatch], and so does [add] of
    an empty array.

    ObjectIds are natural numbers handed out by a counter, so that the order
    of [_id] is the order of insertion; [toHexString] is left out.  Calls are
    sequential: one call runs to its end before the next one starts. *)

From Stdlib Require Import ZArith Lia List Bool.
From stdpp Require Import gmap strings list fin_maps.

Set Warnings "-register-all".
Local Open Scope Z_scope.

(** ** Values *)

Definition Time := Z.
Definition Token := string.
Definition ObjectId := nat.
Bind Scope Z_scope with Time.
Bind Scope nat_scope with ObjectId.

(** Payloads are JSON values; [add] inspects whether one is an array. *)
Inductive JSON :=
| JNull
| JBool (b : bool)
| JNum (n : Z)
| JStr (s : string)
| JArr (items : list JSON)
| JObj (fields : list (string * JSON)).

(** [Array.isArray] *)
Definition isArray (x : JSON) : bool :=
  match x with JArr _ => true | _ => false end.

(** [const _arr = x => (Array.isArray(x) ? x : [x])] *)
Definition _arr (x : JSON) : list JSON :=
  match x with JArr items => items | _ => [x] end.

(** [const _plusSecs = s => new Date(Date.now() + s * 1e3)], the clock
    reading made explicit. *)
Definition _plusSecs (now : Time) (s : Z) : Time := now + s * 1000.

(** The persisted record: [{_id, payload, visible, tries, ack?, deleted?}]. *)
Record Doc := mkDoc {
  _id : ObjectId;
  payload : JSON;
  visible : Time;
  tries : nat;
  ack : option Token;
  deleted : option Time
}.

Inductive Error :=
| UnknownAck
| DuplicateKey
| EmptyBatch.

Inductive Res (A : Type) :=
| Ok (a : A)
| Err (e : Error).
Arguments Ok {A} a.
Arguments Err {A} e.

(** ** The record store *)

(** An update document: [$inc: {tries}], [$set: {ack, visible, deleted}]. *)
Record Update := mkUpdate {
  inc_tries : nat;
  set_ack : option Token;
  set_visible : option Time;
  set_deleted : option Time
}.

Definition apply_update (u : Update) (d : Doc) : Doc :=
  {| _id := _id d;
     payload := payload d;
     visible := match set_visible u with Some v => v | None => visible d end;
     tries := (tries d + inc_tries u)%nat;
     ack := match set_ack u with Some t => Some t | None => ack d end;
     deleted := match set_deleted u with Some t => Some t | None => deleted d end |}.

Definition has_ack (t : Token) (d : Doc) : bool :=
  match ack d with Some t' => String.eqb t t' | None => false end.

Definition has_id (i : ObjectId) (d : Doc) : bool := Nat.eqb (_id d) i.

Module Collection.

(** The matching document with the least [_id] ([sort: {_id: 1}]); the first
    one in natural order among equals. *)
Fixpoint least (l : list Doc) : option Doc :=
  match l with
  | [] => None
  | d :: l' =>
      match least l' with
      | Some m => if (_id d <=? _id m)%nat then Some d else Some m
      | None => Some d
      end
  end.

Definition pick (sorted : bool) (query : Doc -> bool) (c : list Doc) : option Doc :=
  if sorted then least (List.filter query c) else List.find query c.

(** Rewrite the first document that satisfies [p]. *)
Fixpoint update_first (p : Doc -> bool) (f : Doc -> Doc) (c : list Doc) : list Doc :=
  match c with
  | [] => []
  | d :: c' => if p d then f d :: c' else d :: update_first p f c'
  end.

(** The unique sparse index [{ack: 1}]: writing token [t] into document [d]
    is refused when another document of the collection holds [t]. *)
Definition ack_taken (u : Update) (d : Doc) (c : list Doc) : bool :=
  match set_ack u with
  | Some t => existsb (fun d' => has_ack t d' && negb (has_id (_id d) d')) c
  | None => false
  end.

(** [findOneAndUpdate(query, update, {sort?, returnDocument: 'after'})]
    followed by [unwrap]: the updated document, or nothing. *)
Definition findOneAndUpdate (query : Doc -> bool) (u : Update) (sorted : bool)
    (c : list Doc) : Res (option Doc * list Doc) :=
  match pick sorted query c with
  | None => Ok (None, c)
  | Some d =>
      if ack_taken u d c then Err DuplicateKey
      else Ok (Some (apply_update u d),
               update_first (fun d' => query d' && has_id (_id d) d') (apply_update u) c)
  end.

(** [updateOne(query, update)] *)
Definition updateOne (query : Doc -> bool) (u : Update) (c : list Doc) : list Doc :=
  update_first query (apply_update u) c.

(** [insertOne(doc)] of a document that brings its own [_id]: refused by the
    [_id] index or by the [ack] index. *)
Definition insertOne (d : Doc) (c : list Doc) : Res (list Doc) :=
  if existsb (has_id (_id d)) c then Err DuplicateKey
  else match ack d with
       | Some t => if existsb (has_ack t) c then Err DuplicateKey else Ok (c ++ [d])
       | None => Ok (c ++ [d])
       end.

(** [insertMany(docs, {ordered: false})]: the driver numbers the documents
    with fresh ObjectIds, here consecutive from [oid]. *)
Fixpoint number (oid : ObjectId) (docs : list (JSON * Time)) : list Doc :=
  match docs with
  | [] => []
  | (p, v) :: docs' =>
      {| _id := oid; payload := p; visible := v; tries := 0; ack := None; deleted := None |}
        :: number (S oid) docs'
  end.

Definition countDocuments (query : Doc -> bool) (c : list Doc) : nat :=
  length (List.filter query c).

Definition estimatedDocumentCount (c : list Doc) : nat := length c.

End Collection.

(** The database: collections by name, and the ObjectId counter of the driver. *)
Record Db := mkDb {
  colls : gmap string (list Doc);
  next_oid : ObjectId
}.

Definition coll (db : Db) (name : string) : list Doc :=
  match colls db !! name with Some c => c | None => [] end.

Definition set_coll (name : string) (c : list Doc) (db : Db) : Db :=
  {| colls := <[name := c]> (colls db); next_oid := next_oid db |}.

(** [insertMany(docs, {ordered: false})] on the collection [name].  The driver
    refuses an empty batch before anything is sent to the server (it throws
    [MongoInvalidArgumentError], "Batch cannot be empty"); the store is then
    as it was.  The records of [add] carry neither [_id] nor [ack], so no
    index can refuse them. *)
Definition insertMany (name : string) (docs : list (JSON * Time)) (db : Db)
    : Res (list ObjectId) * Db :=
  match docs with
  | [] => (Err EmptyBatch, db)
  | _ :: _ =>
      let new := Collection.number (next_oid db) docs in
      (Ok (map _id new),
       {| colls := <[name := coll db name ++ new]> (colls db);
          next_oid := (next_oid db + length docs)%nat |})
  end.

(** ** Queries of [queue.js] *)

(** [{ deleted: null, visible: { $lte: now } }] *)
Definition claimable (now : Time) (d : Doc) : bool :=
  match deleted d with None => visible d <=? now | Some _ => false end.

(** [{ ack, visible: { $gt: now }, deleted: null }] *)
Definition owned (t : Token) (now : Time) (d : Doc) : bool :=
  has_ack t d && (now <? visible d) &&
  match deleted d with None => true | Some _ => false end.

(** [{ ack: { $exists: true }, visible: { $gt: now }, deleted: null }] *)
Definition in_flight (now : Time) (d : Doc) : bool :=
  match ack d with Some _ => true | None => false end && (now <? visible d) &&
  match deleted d with None => true | Some _ => false end.

(** [{ deleted: { $exists: true } }] *)
Definition is_deleted (d : Doc) : bool :=
  match deleted d with Some _ => true | None => false end.

(** ** The queue *)

(** The fields the constructor stores; [_deadQueue] is another queue. *)
Inductive Queue := mkQueue {
  _col : string;
  _visibility : Z;
  _delay : Z;
  _deadQueue : option Queue;
  _maxRetries : Z;
  _txnDLQ : bool
}.

(** What [get] returns: [{id, ack, payload, tries}]. *)
Module Msg.
Record t := make {
  id : ObjectId;
  ack : option Token;
  payload : JSON;
  tries : nat
}.
End Msg.

(** What [add] returns: [ids] for an array, [ids[0]] otherwise ([undefined]
    if there were no ids). *)
Inductive Added :=
| Ids (ids : list ObjectId)
| Id (i : ObjectId)
| Undefined.

(** The clock and the token generator as the k-th recursive call of one
    [get] reads them. *)
Record Env := mkEnv {
  _now : nat -> Time;
  _ack : nat -> Token
}.

Definition later (env : Env) : Env :=
  {| _now := fun k => _now env (S k); _ack := fun k => _ack env (S k) |}.

Module Queue.

Definition add (q : Queue) (now : Time) (payload : JSON) (delay : option Z) (db : Db)
    : Res Added * Db :=
  let delay := match delay with Some s => s | None => _delay q end in
  let visible := if delay =? 0 then now else _plusSecs now delay in
  let docs := map (fun p => (p, visible)) (_arr payload) in
  match insertMany (_col q) docs db with
  | (Ok ids, db') =>
      (Ok (if isArray payload then Ids ids
           else match ids with i :: _ => Id i | [] => Undefined end), db')
  | (Err e, db') => (Err e, db')
  end.

(** [scheduleAt(date, payload, opts)], for a [date] that is a [Date] already:
    whole seconds from now, never negative; [{...opts, delay}] replaces any
    delay given in [opts].  The clock is read twice: [now] is the reading of
    [scheduleAt] itself, from which the delay is computed, and [now'] the one
    [add] takes afterwards, to which the delay is added. *)
Definition scheduleAt (q : Queue) (now now' : Time) (date : Time) (payload : JSON)
    (delay : option Z) (db : Db) : Res Added * Db :=
  let delay := Z.max 0 ((date - now) / 1000) in
  add q now' payload (Some delay) db.

(** [scheduleRecurring(cron, payload, opts)]: the payload wrapped in a template;
    [createdAt] is the clock reading [created] of [scheduleRecurring] itself,
    a date in milliseconds; [now] is the reading [add] takes afterwards. *)
Definition scheduleRecurring (q : Queue) (created now : Time) (cron : JSON) (payload : JSON)
    (delay : option Z) (db : Db) : Res Added * Db :=
  add q now
    (JObj [("originalPayload", payload);
           ("recurrence", JObj [("pattern", cron); ("createdAt", JNum created)])])
    delay db.

(** The two writes of a dead-letter move: the copy, then the mark. *)
Definition dlq_writes (q dq : Queue) (now : Time) (msg : Doc) (db : Db) : Res unit * Db :=
  match Collection.insertOne msg (coll db (_col dq)) with
  | Err e => (Err e, db)
  | Ok cd =>
      let db1 := set_coll (_col dq) cd db in
      let src := Collection.updateOne (has_id (_id msg))
                   (mkUpdate 0 None None (Some now)) (coll db1 (_col q)) in
      (Ok tt, set_coll (_col q) src db1)
  end.

(** [_moveToDLQ(msg)].  Inside [session.withTransaction] a refused insert
    aborts with nothing written; outside it the insert throws before the
    update is issued.  In this sequential model the two branches agree. *)
Definition _moveToDLQ (q : Queue) (now : Time) (msg : Doc) (db : Db) : Res unit * Db :=
  match _deadQueue q with
  | None => (Ok tt, db)
  | Some dq =>
      if _txnDLQ q then dlq_writes q dq now msg db
      else dlq_writes q dq now msg db
  end.

(** [this._deadQueue && msg.tries > this._maxRetries] *)
Definition poisoned (q : Queue) (msg : Doc) : bool :=
  match _deadQueue q with
  | Some _ => _maxRetries q <? Z.of_nat (tries msg)
  | None => false
  end.

Definition claim_update (now : Time) (tok : Token) (visibility : Z) : Update :=
  mkUpdate 1 (Some tok) (Some (_plusSecs now visibility)) None.

(** Lines 88-96 of [get]: the atomic claim of the earliest claimable record. *)
Definition claim (q : Queue) (visibility : Z) (now : Time) (tok : Token) (db : Db)
    : Res (option Doc * list Doc) :=
  Collection.findOneAndUpdate (claimable now) (claim_update now tok visibility) true
    (coll db (_col q)).

Definition to_msg (msg : Doc) : Msg.t :=
  {| Msg.id := _id msg; Msg.ack := ack msg;
     Msg.payload := payload msg; Msg.tries := tries msg |}.

(** [get({visibility})]; [None] only when [fuel] recursive calls were not
    enough. *)
Fixpoint get (fuel : nat) (q : Queue) (visibility : option Z) (env : Env) (db : Db)
    : option (Res (option Msg.t) * Db) :=
  match fuel with
  | O => None
  | S fuel' =>
      let visibility := match visibility with Some s => s | None => _visibility q end in
      let now := _now env 0%nat in
      match claim q visibility now (_ack env 0%nat) db with
      | Err e => Some (Err e, db)
      | Ok (None, _) => Some (Ok None, db)
      | Ok (Some msg, c') =>
          let db1 := set_coll (_col q) c' db in
          if poisoned q msg then
            match _moveToDLQ q now msg db1 with
            | (Err e, db2) => Some (Err e, db2)
            | (Ok _, db2) => get fuel' q (Some visibility) (later env) db2
            end
          else Some (Ok (Some (to_msg msg)), db1)
      end
  end.

Definition ping (q : Queue) (now : Time) (tok : Token) (visibility : option Z) (db : Db)
    : Res ObjectId * Db :=
  let visibility := match visibility with Some s => s | None => _visibility q end in
  match Collection.findOneAndUpdate (owned tok now)
          (mkUpdate 0 None (Some (_plusSecs now visibility)) None) false
          (coll db (_col q)) with
  | Ok (Some doc, c') => (Ok (_id doc), set_coll (_col q) c' db)
  | Ok (None, _) => (Err UnknownAck, db)
  | Err e => (Err e, db)
  end.

Definition ack (q : Queue) (now : Time) (tok : Token) (db : Db) : Res ObjectId * Db :=
  match Collection.findOneAndUpdate (owned tok now)
          (mkUpdate 0 None None (Some now)) false (coll db (_col q)) with
  | Ok (Some doc, c') => (Ok (_id doc), set_coll (_col q) c' db)
  | Ok (None, _) => (Err UnknownAck, db)
  | Err e => (Err e, db)
  end.

Definition total (q : Queue) (db : Db) : nat :=
  Collection.estimatedDocumentCount (coll db (_col q)).

Definition size (q : Queue) (now : Time) (db : Db) : nat :=
  Collection.countDocuments (claimable now) (coll db (_col q)).

Definition inFlight (q : Queue) (now : Time) (db : Db) : nat :=
  Collection.countDocuments (in_flight now) (coll db (_col q)).

Definition done (q : Queue) (db : Db) : nat :=
  Collection.countDocuments is_deleted (coll db (_col q)).

End Queue.

(** The TTL monitor on [{deleted: 1}, {expireAfterSeconds: 0}]: a background
    step of the store that drops the documents whose [deleted] date has passed. *)
Definition expired (now : Time) (d : Doc) : bool :=
  match deleted d with Some t => t <=? now | None => false end.

Definition ttl_purge (name : string) (now : Time) (db : Db) : Db :=
  set_coll name (List.filter (fun d => negb (expired now d)) (coll db name)) db.

(** ** Records written by the queue *)

Definition set_visible_to (v : Time) (d : Doc) : Doc :=
  mkDoc (_id d) (payload d) v (tries d) (ack d) (deleted d).

Definition set_deleted_to (t : Time) (d : Doc) : Doc :=
  mkDoc (_id d) (payload d) (visible d) (tries d) (ack d) (Some t).

(** The record a claim leaves behind: one more try, the new token, and
    [visible] moved to the end of the visibility window. *)
Definition claimed (now : Time) (tok : Token) (v : Z) (d : Doc) : Doc :=
  mkDoc (_id d) (payload d) (now + v * 1000) (S (tries d)) (Some tok) (deleted d).

(** The record [insertMany] stores for the k-th document of a batch. *)
Definition fresh_doc (oid : ObjectId) (v : Time) (k : nat) (p : JSON) : Doc :=
  mkDoc (oid + k) p v 0 None None.

(** [{ deleted: null }]: the records the claim query can ever match. *)
Definition not_deleted (d : Doc) : bool := negb (is_deleted d).

(** Added with a delay that has not elapsed, and never claimed. *)
Definition delayed (now : Time) (d : Doc) : bool :=
  match ack d with Some _ => false | None => true end && (now <? visible d) &&
  match deleted d with None => true | Some _ => false end.

(** What may become of a record: it keeps its [_id] and its payload, [tries]
    does not go down, a token once written stays, and a record with
    [deleted] set does not change at all. *)
Definition evolves (d d' : Doc) : Prop :=
  _id d' = _id d /\ payload d' = payload d /\ (tries d <= tries d')%nat
  /\ (ack d <> None -> ack d' <> None)
  /\ (deleted d <> None -> d' = d).

(** ** Clients, reachable stores and what the indexes maintain *)

Definition empty_db : Db := mkDb ∅ 0.

(** The calls a client can make, and the background purge of the store. *)
Inductive Op :=
| OpAdd (q : Queue) (now : Time) (payload : JSON) (delay : option Z)
| OpGet (fuel : nat) (q : Queue) (visibility : option Z) (env : Env)
| OpPing (q : Queue) (now : Time) (tok : Token) (visibility : option Z)
| OpAck (q : Queue) (now : Time) (tok : Token)
| OpPurge (name : string) (now : Time).

Definition exec (op : Op) (db : Db) : option Db :=
  match op with
  | OpAdd q now payload delay => Some (snd (Queue.add q now payload delay db))
  | OpGet fuel q visibility env =>
      match Queue.get fuel q visibility env db with
      | Some (_, db') => Some db'
      | None => None
      end
  | OpPing q now tok visibility => Some (snd (Queue.ping q now tok visibility db))
  | OpAck q now tok => Some (snd (Queue.ack q now tok db))
  | OpPurge name now => Some (ttl_purge name now db)
  end.

Fixpoint run (ops : list Op) (db : Db) : option Db :=
  match ops with
  | [] => Some db
  | op :: ops' =>
      match exec op db with
      | Some db' => run ops' db'
      | None => None
      end
  end.

Inductive reachable : Db -> Prop :=
| reach_empty : reachable empty_db
| reach_step db op db' : reachable db -> exec op db = Some db' -> reachable db'.

(** What the indexes of a collection and the queue's own writes maintain. *)
Record wf_coll (bound : ObjectId) (c : list Doc) : Prop := mk_wf_coll {
  wf_ids : NoDup (map _id c);
  wf_bound : forall d, In d c -> (_id d < bound)%nat;
  wf_acks : NoDup (omap ack c);
  wf_claimed : forall d, In d c -> (ack d = None <-> tries d = 0%nat);
  wf_deleted : forall d, In d c -> deleted d <> None -> ack d <> None
}.

Definition wf (db : Db) : Prop := forall name, wf_coll (next_oid db) (coll db name).

(** A consumer's turn, as in the README: [get], then perhaps [ack] of the
    token received, at a time of its own. *)
Record Turn := mkTurn {
  turn_env : Env;
  turn_ack : option Time
}.

Definition after_turn (q : Queue) (t : Turn) (m : Msg.t) (db : Db) : Db :=
  match turn_ack t, Msg.ack m with
  | Some a, Some tok => snd (Queue.ack q a tok db)
  | _, _ => db
  end.

(** Sequential turns on one queue; the list of what the [get]s returned. *)
Fixpoint consume (fuel : nat) (q : Queue) (visibility : option Z) (turns : list Turn)
    (db : Db) : list (option Msg.t) :=
  match turns with
  | [] => []
  | t :: turns' =>
      match Queue.get fuel q visibility (turn_env t) db with
      | Some (Ok (Some m), db1) =>
          Some m :: consume fuel q visibility turns' (after_turn q t m db1)
      | Some (_, db1) => None :: consume fuel q visibility turns' db1
      | None => []
      end
  end.

(** Records that no [get] of the turns to come can claim, and that hold none
    of the tokens still to be issued. *)
Definition settled (turns : list Turn) (x : Doc) : Prop :=
  forall t, In t turns ->
    claimable (_now (turn_env t) 0%nat) x = false
    /\ ack x <> Some (_ack (turn_env t) 0%nat).

(** A turn keeps its record from the turns that follow: it acknowledges the
    record while its claim is outstanding, or every later [get] comes before
    the claim runs out, [v] seconds after it was made. *)
Definition keeps (v : Z) (t : Turn) (rest : list Turn) : bool :=
  let expiry := _now (turn_env t) 0%nat + v * 1000 in
  match turn_ack t with Some a => a <? expiry | None => false end
  || forallb (fun t' => _now (turn_env t') 0%nat <? expiry) rest.

Fixpoint undisturbed (v : Z) (turns : list Turn) : bool :=
  match turns with
  | [] => true
  | t :: rest => keeps v t rest && undisturbed v rest
  end.

(** The calls of [get] as a relation: one rule per way out of its body, with
    the visibility [v] already resolved. *)
Inductive get_run (q : Queue) (v : Z) : Env -> Db -> Res (option Msg.t) -> Db -> Prop :=
| run_empty env db c' :
    Queue.claim q v (_now env 0%nat) (_ack env 0%nat) db = Ok (None, c') ->
    get_run q v env db (Ok None) db
| run_refused env db e :
    Queue.claim q v (_now env 0%nat) (_ack env 0%nat) db = Err e ->
    get_run q v env db (Err e) db
| run_returns env db msg c' :
    Queue.claim q v (_now env 0%nat) (_ack env 0%nat) db = Ok (Some msg, c') ->
    Queue.poisoned q msg = false ->
    get_run q v env db (Ok (Some (Queue.to_msg msg))) (set_coll (_col q) c' db)
| run_move_refused env db msg c' e db2 :
    Queue.claim q v (_now env 0%nat) (_ack env 0%nat) db = Ok (Some msg, c') ->
    Queue.poisoned q msg = true ->
    Queue._moveToDLQ q (_now env 0%nat) msg (set_coll (_col q) c' db) = (Err e, db2) ->
    get_run q v env db (Err e) db2
| run_moves env db msg c' db2 r db' :
    Queue.claim q v (_now env 0%nat) (_ack env 0%nat) db = Ok (Some msg, c') ->
    Queue.poisoned q msg = true ->
    Queue._moveToDLQ q (_now env 0%nat) msg (set_coll (_col q) c' db) = (Ok tt, db2) ->
    get_run q v (later env) db2 r db' ->
    get_run q v env db r db'.

(** Every record of [c] is still in [c'], as [evolves] allows. *)
Definition coll_evolves (c c' : list Doc) : Prop :=
  forall d, In d c -> exists d', In d' c' /\ evolves d d'.

(** ** The stores and queues of the examples *)

(** The configuration of the scenario of the specification: a one second
    visibility window, no retry allowed, and a dead-letter queue. *)
Definition dead_queue : Queue := mkQueue "dead" 30 0 None 5 false.

Definition jobs_queue : Queue := mkQueue "jobs" 1 0 (Some dead_queue) 0 false.

Definition plain_queue : Queue := mkQueue "jobs" 30 0 None 5 false.

Definition token_of (k : nat) : Token :=
  String (Ascii.ascii_of_nat (97 + k)) EmptyString.

(** A clock that stands at [t] while one [get] runs. *)
Definition at_time (t : Time) : Env := mkEnv (fun _ => t) token_of.

(** The store of the scenario after [add("job1")] at time 1000. *)
Definition jobs_db : Db :=
  snd (Queue.add jobs_queue 1000 (JStr "job1") None empty_db).

(** A job added at 1000, claimed at 1000 with token [a], acknowledged at 1500. *)
Definition acked_ops : list Op :=
  [OpAdd plain_queue 1000 (JStr "job1") None;
   OpGet 1 plain_queue None (at_time 1000);
   OpAck plain_queue 1500 "a"].

Definition acked_doc : Doc := mkDoc 0 (JStr "job1") 31000 1 (Some "a") (Some 1500).

Definition acked_db : Db := set_coll "jobs" [acked_doc] (mkDb ∅ 1).

(** The store of the scenario of [acked_ops] before the acknowledgement. *)
Definition claimed_db : Db :=
  set_coll "jobs" [mkDoc 0 (JStr "job1") 31000 1 (Some "a") None] (mkDb ∅ 1).

(** Two turns further apart than the visibility window of [plain_queue]; the
    first acknowledges its record. *)
Definition two_turns : list Turn :=
  [mkTurn (mkEnv (fun _ => 1000) (fun _ => "a")) (Some 1200);
   mkTurn (mkEnv (fun _ => 90000) (fun _ => "b")) None].

(** Two turns that do not acknowledge, the second while the claim of the
    first is outstanding. *)
Definition close_turns : list Turn :=
  [mkTurn (mkEnv (fun _ => 1000) (fun _ => "a")) None;
   mkTurn (mkEnv (fun _ => 1500) (fun _ => "b")) None].

(** A clock that advances by a millisecond from one recursive call of [get]
    to the next, and a store where a delayed record becomes visible
    meanwhile. *)
Definition ticking : Env := mkEnv (fun k => 999 + Z.of_nat k) token_of.

Definition staggered_db : Db :=
  snd (Queue.add jobs_queue 0 (JStr "y") (Some 1)
         (snd (Queue.add jobs_queue 0 (JStr "x") None empty_db))).

(** Two turns whose [get]s draw a new token at each recursive call. *)
Definition fresh_turns : list Turn :=
  [mkTurn (at_time 1000) (Some 1200);
   mkTurn (mkEnv (fun _ => 1500) (fun k => token_of (3 + k))) None].

(** The store of [claimed_db] after [ping] with a visibility of zero at 1500. *)
Definition released_db : Db :=
  set_coll "jobs" [mkDoc 0 (JStr "job1") 1500 1 (Some "a") None] (mkDb ∅ 1).

(** A store whose only record has been claimed nine times. *)
Definition worn_db : Db :=
  set_coll "jobs" [mkDoc 0 (JStr "job1") 1000 9 (Some "p") None] (mkDb ∅ 1).

(** A queue that names itself as its dead-letter queue. *)
Definition self_dead_queue : Queue :=
  mkQueue "jobs" 1 0 (Some (mkQueue "jobs" 30 0 None 5 false)) 0 false.

(** A queue that allows two tries, and a store where the first record has
    used both. *)
Definition retry_queue : Queue := mkQueue "jobs" 30 0 (Some dead_queue) 2 false.

Definition mixed_db : Db :=
  set_coll "jobs" [mkDoc 0 (JStr "bad") 1000 2 (Some "p") None;
                   mkDoc 1 (JStr "good") 1000 0 None None] (mkDb ∅ 2).

(** A store with one record waiting and one held under the token [q]. *)
Definition busy_db : Db :=
  set_coll "jobs" [mkDoc 0 (JStr "next") 1000 0 None None;
                   mkDoc 1 (JStr "held") 9000 1 (Some "q") None] (mkDb ∅ 2).

(** * Facts about the store *)

Section StoreFacts.

Lemma coll_set_coll_eq name c db : coll (set_coll name c db) name = c.
Proof. unfold coll, set_coll; simpl. now rewrite lookup_insert_eq. Qed.

Lemma coll_set_coll_ne name name' c db :
  name <> name' -> coll (set_coll name c db) name' = coll db name'.
Proof. intros Hne. unfold coll, set_coll; simpl. now rewrite lookup_insert_ne. Qed.

Lemma has_id_true i d : has_id i d = true <-> _id d = i.
Proof. unfold has_id. apply Nat.eqb_eq. Qed.

Lemma has_id_false i d : has_id i d = false <-> _id d <> i.
Proof. unfold has_id. apply Nat.eqb_neq. Qed.

Lemma has_ack_true t d : has_ack t d = true <-> ack d = Some t.
Proof.
  unfold has_ack. destruct (ack d) as [t'|]; [|split; discriminate].
  rewrite String.eqb_eq. split; congruence.
Qed.

Lemma has_ack_false t d : has_ack t d = false <-> ack d <> Some t.
Proof.
  rewrite <- has_ack_true. destruct (has_ack t d); split; congruence.
Qed.

Lemma claimable_true now d :
  claimable now d = true <-> deleted d = None /\ visible d <= now.
Proof.
  unfold claimable. destruct (deleted d).
  - split; [discriminate | intros [H _]; discriminate].
  - rewrite Z.leb_le. tauto.
Qed.

Lemma claimable_false now d :
  claimable now d = false <-> deleted d <> None \/ now < visible d.
Proof.
  unfold claimable. destruct (deleted d).
  - split; [left; discriminate | reflexivity].
  - rewrite Z.leb_gt. split; [now right | intros [H|H]; [congruence | exact H]].
Qed.

Lemma owned_true t now d :
  owned t now d = true <-> ack d = Some t /\ now < visible d /\ deleted d = None.
Proof.
  unfold owned. rewrite !andb_true_iff, has_ack_true, Z.ltb_lt.
  destruct (deleted d); intuition congruence.
Qed.

Lemma least_None l : Collection.least l = None -> l = [].
Proof.
  destruct l as [|d l]; [reflexivity|]. simpl.
  destruct (Collection.least l) as [m|]; [destruct (_id d <=? _id m)%nat|]; discriminate.
Qed.

(** [least] returns a member with the smallest [_id], the first among equals. *)
Lemma least_split l m :
  Collection.least l = Some m ->
  exists pre post, l = pre ++ m :: post
    /\ (forall x, In x pre -> (_id m < _id x)%nat)
    /\ (forall x, In x post -> (_id m <= _id x)%nat).
Proof.
  revert m. induction l as [|d l IH]; simpl; intros m H; [discriminate|].
  destruct (Collection.least l) as [m'|] eqn:E.
  - destruct (IH m' eq_refl) as (pre & post & -> & Hpre & Hpost).
    destruct (Nat.leb_spec (_id d) (_id m')) as [Hle|Hgt]; inversion H; subst.
    + exists [], (pre ++ m' :: post). split; [reflexivity|]. split; [intros x []|].
      intros x Hx. apply in_app_or in Hx. destruct Hx as [Hx|[<-|Hx]].
      * specialize (Hpre x Hx). lia.
      * exact Hle.
      * specialize (Hpost x Hx). lia.
    + exists (d :: pre), post. split; [reflexivity|]. split; [|exact Hpost].
      intros x [<-|Hx]; [exact Hgt | now apply Hpre].
  - inversion H; subst. apply least_None in E. subst l.
    exists [], []. split; [reflexivity|]. split; intros x [].
Qed.

(** Splitting a filtered list back into the list it came from. *)
Lemma filter_split (q : Doc -> bool) c pre m post :
  List.filter q c = pre ++ m :: post ->
  exists pre' post', c = pre' ++ m :: post'
    /\ List.filter q pre' = pre /\ List.filter q post' = post /\ q m = true.
Proof.
  revert pre. induction c as [|d c IH]; simpl; intros pre H.
  - destruct pre; discriminate.
  - destruct (q d) eqn:Q.
    + destruct pre as [|p pre]; simpl in H; inversion H; subst.
      * exists [], c. simpl. now rewrite Q.
      * destruct (IH pre H2) as (pre' & post' & -> & Hp & Hq & Hm).
        exists (p :: pre'), post'. simpl. rewrite Q, Hp. now repeat split.
    + destruct (IH pre H) as (pre' & post' & -> & Hp & Hq & Hm).
      exists (d :: pre'), post'. simpl. rewrite Q. now repeat split.
Qed.

(** The document [pick] selects, and where it stands in the collection. *)
Lemma pick_sorted_split q c d :
  Collection.pick true q c = Some d ->
  exists pre post, c = pre ++ d :: post /\ q d = true
    /\ (forall x, In x pre -> q x = true -> (_id d < _id x)%nat)
    /\ (forall x, In x post -> q x = true -> (_id d <= _id x)%nat).
Proof.
  unfold Collection.pick. intros H.
  destruct (least_split _ _ H) as (fpre & fpost & Hf & Hpre & Hpost).
  destruct (filter_split q c fpre d fpost Hf) as (pre & post & -> & <- & <- & Hd).
  exists pre, post. repeat split; [exact Hd| |].
  - intros x Hx Qx. apply Hpre. apply filter_In. now split.
  - intros x Hx Qx. apply Hpost. apply filter_In. now split.
Qed.

Lemma pick_first_split q c d :
  Collection.pick false q c = Some d ->
  exists pre post, c = pre ++ d :: post /\ q d = true
    /\ (forall x, In x pre -> q x = false).
Proof.
  unfold Collection.pick. induction c as [|x c IH]; simpl; [discriminate|].
  destruct (q x) eqn:Q; intros H.
  - inversion H; subst. exists [], c. repeat split; [exact Q | intros y []].
  - destruct (IH H) as (pre & post & -> & Hd & Hpre).
    exists (x :: pre), post. repeat split; [exact Hd|].
    intros y [<-|Hy]; [exact Q | now apply Hpre].
Qed.

Lemma pick_None sorted q c :
  Collection.pick sorted q c = None -> forall x, In x c -> q x = false.
Proof.
  unfold Collection.pick. destruct sorted; intros H x Hx.
  - apply least_None in H. destruct (q x) eqn:Q; [|reflexivity].
    assert (In x (List.filter q c)) as Hin by (apply filter_In; now split).
    rewrite H in Hin. destruct Hin.
  - destruct (q x) eqn:Q; [|reflexivity].
    eapply find_none in H; [|exact Hx]. congruence.
Qed.

Lemma update_first_split p f pre d post :
  p d = true -> (forall x, In x pre -> p x = false) ->
  Collection.update_first p f (pre ++ d :: post) = pre ++ f d :: post.
Proof.
  intros Hd. induction pre as [|x pre IH]; simpl; intros Hpre.
  - now rewrite Hd.
  - rewrite (Hpre x (or_introl eq_refl)). f_equal. apply IH.
    intros y Hy. apply Hpre. now right.
Qed.

End StoreFacts.

Section FindOneAndUpdate.

Variables (q : Doc -> bool) (u : Update) (sorted : bool).

Lemma pick_split c d :
  Collection.pick sorted q c = Some d ->
  exists pre post, c = pre ++ d :: post /\ q d = true
    /\ (forall x, In x pre -> q x && has_id (_id d) x = false)
    /\ (sorted = true -> forall x, In x c -> q x = true -> (_id d <= _id x)%nat)
    /\ (sorted = false -> forall x, In x pre -> q x = false).
Proof.
  destruct sorted; intros H.
  - destruct (pick_sorted_split _ _ _ H) as (pre & post & -> & Hd & Hpre & Hpost).
    exists pre, post. repeat split; [exact Hd| | |discriminate].
    + intros x Hx. destruct (q x) eqn:Q; [simpl|reflexivity].
      apply has_id_false. specialize (Hpre x Hx Q). lia.
    + intros _ x Hx Qx. apply in_app_or in Hx. destruct Hx as [Hx|[<-|Hx]].
      * specialize (Hpre x Hx Qx). lia.
      * lia.
      * now apply Hpost.
  - destruct (pick_first_split _ _ _ H) as (pre & post & -> & Hd & Hpre).
    exists pre, post. repeat split; [exact Hd| |discriminate|intros _; exact Hpre].
    intros x Hx. now rewrite (Hpre x Hx).
Qed.

Lemma findOneAndUpdate_found c m c' :
  Collection.findOneAndUpdate q u sorted c = Ok (Some m, c') ->
  exists pre d post, c = pre ++ d :: post /\ q d = true
    /\ m = apply_update u d /\ c' = pre ++ m :: post
    /\ Collection.pick sorted q c = Some d
    /\ Collection.ack_taken u d c = false
    /\ (sorted = true -> forall x, In x c -> q x = true -> (_id d <= _id x)%nat)
    /\ (sorted = false -> forall x, In x pre -> q x = false).
Proof.
  unfold Collection.findOneAndUpdate.
  destruct (Collection.pick sorted q c) as [d|] eqn:P; [|discriminate].
  destruct (Collection.ack_taken u d c) eqn:T; [discriminate|].
  intros H. inversion H; subst. clear H.
  destruct (pick_split _ _ P) as (pre & post & Hc & Hd & Hpre & Hmin & Hfirst).
  exists pre, d, post. rewrite <- Hc.
  repeat split; try assumption; try reflexivity.
  rewrite Hc. apply update_first_split; [|exact Hpre].
  rewrite Hd. simpl. now apply has_id_true.
Qed.

Lemma findOneAndUpdate_none c c' :
  Collection.findOneAndUpdate q u sorted c = Ok (None, c') ->
  c' = c /\ forall x, In x c -> q x = false.
Proof.
  unfold Collection.findOneAndUpdate.
  destruct (Collection.pick sorted q c) as [d|] eqn:P.
  - destruct (Collection.ack_taken u d c); discriminate.
  - intros H. inversion H; subst. split; [reflexivity|]. exact (pick_None _ _ _ P).
Qed.

Lemma findOneAndUpdate_no_match c :
  (forall x, In x c -> q x = false) ->
  Collection.findOneAndUpdate q u sorted c = Ok (None, c).
Proof.
  intros H. unfold Collection.findOneAndUpdate.
  destruct (Collection.pick sorted q c) as [d|] eqn:P; [|reflexivity].
  destruct (pick_split _ _ P) as (pre & post & -> & Hd & _).
  rewrite H in Hd; [discriminate|]. apply in_or_app. right. now left.
Qed.

Lemma findOneAndUpdate_err c e :
  Collection.findOneAndUpdate q u sorted c = Err e ->
  e = DuplicateKey /\ exists d t x, Collection.pick sorted q c = Some d
    /\ set_ack u = Some t /\ In x c /\ ack x = Some t /\ _id x <> _id d.
Proof.
  unfold Collection.findOneAndUpdate.
  destruct (Collection.pick sorted q c) as [d|] eqn:P; [|discriminate].
  destruct (Collection.ack_taken u d c) eqn:T; [|discriminate].
  intros H. inversion H. split; [reflexivity|].
  unfold Collection.ack_taken in T. destruct (set_ack u) as [t|]; [|discriminate].
  apply existsb_exists in T. destruct T as (x & Hx & Hb).
  apply andb_true_iff in Hb. destruct Hb as [Ha Hi].
  exists d, t, x. repeat split; [exact Hx|now apply has_ack_true|].
  apply negb_true_iff in Hi. now apply has_id_false.
Qed.

End FindOneAndUpdate.

(** * Properties of the queue *)

Lemma get_no_claimable fuel q visibility env db :
  (forall d, In d (coll db (_col q)) -> claimable (_now env 0%nat) d = false) ->
  Queue.get (S fuel) q visibility env db = Some (Ok None, db).
Proof.
  intros H. simpl. unfold Queue.claim.
  now rewrite findOneAndUpdate_no_match.
Qed.

(** C9: [get] on a queue without a claimable record returns the empty
    result, raises nothing and leaves the store as it was. *)
Theorem get_nothing_claimable fuel q visibility env db :
  (forall d, In d (coll db (_col q)) ->
     deleted d <> None \/ _now env 0%nat < visible d) ->
  Queue.get (S fuel) q visibility env db = Some (Ok None, db).
Proof.
  intros H. apply get_no_claimable.
  intros x Hx. apply claimable_false. now apply H.
Qed.

Lemma get_nothing_claimable_witness :
  Queue.get 1 plain_queue None (at_time 5000)
    (set_coll "jobs"
       [mkDoc 0 (JStr "done") 1000 1 (Some "a") (Some 2000);
        mkDoc 1 (JStr "later") 9000 0 None None] empty_db)
  = Some (Ok None,
      set_coll "jobs"
       [mkDoc 0 (JStr "done") 1000 1 (Some "a") (Some 2000);
        mkDoc 1 (JStr "later") 9000 0 None None] empty_db).
Proof.
  apply (get_nothing_claimable 0%nat plain_queue None (at_time 5000)).
  intros d. rewrite coll_set_coll_eq. simpl.
  intros [<-|[<-|[]]]; simpl; [left; discriminate | right; lia].
Defined.

(** ** Extend *)

Lemma apply_set_visible v d :
  apply_update (mkUpdate 0 None (Some v) None) d = set_visible_to v d.
Proof. unfold apply_update, set_visible_to. simpl. now rewrite Nat.add_0_r. Qed.

Lemma apply_set_deleted t d :
  apply_update (mkUpdate 0 None None (Some t)) d = set_deleted_to t d.
Proof. unfold apply_update, set_deleted_to. simpl. now rewrite Nat.add_0_r. Qed.

(** What a successful [ping] did. *)
Lemma ping_Ok q now tok visibility db i db' :
  Queue.ping q now tok visibility db = (Ok i, db') ->
  exists pre d post,
    coll db (_col q) = pre ++ d :: post /\ _id d = i
    /\ owned tok now d = true /\ (forall x, In x pre -> owned tok now x = false)
    /\ db' = set_coll (_col q)
               (pre ++ set_visible_to
                  (_plusSecs now (match visibility with Some s => s | None => _visibility q end))
                  d :: post) db.
Proof.
  unfold Queue.ping.
  destruct (Collection.findOneAndUpdate _ _ _ _) as [[[m|] c']|e] eqn:F;
    intros H; inversion H; subst; clear H.
  destruct (findOneAndUpdate_found _ _ _ _ _ _ F)
    as (pre & d & post & Hc & Hd & -> & -> & _ & _ & _ & Hfirst).
  exists pre, d, post. rewrite apply_set_visible.
  repeat split; try assumption. now apply Hfirst.
Qed.

Lemma ping_Err q now tok visibility db e db' :
  Queue.ping q now tok visibility db = (Err e, db') ->
  e = UnknownAck /\ db' = db
  /\ forall x, In x (coll db (_col q)) -> owned tok now x = false.
Proof.
  unfold Queue.ping.
  destruct (Collection.findOneAndUpdate _ _ _ _) as [[[m|] c']|e'] eqn:F;
    intros H; inversion H; subst; clear H.
  - destruct (findOneAndUpdate_none _ _ _ _ _ F) as [_ Hno]. now repeat split.
  - destruct (findOneAndUpdate_err _ _ _ _ _ F) as (_ & d & t & x & _ & Hset & _).
    discriminate Hset.
Qed.

(** C4: [ping] succeeds exactly when a record holds the token, is still
    invisible ([visible > now]) and is not deleted; it then moves that
    record's [visible] to [now + visibility] and touches nothing else.
    Otherwise it fails with the unknown-ack error and the store is unchanged. *)
Theorem ping_iff_owned q now tok visibility db :
  let v := match visibility with Some s => s | None => _visibility q end in
  let c := coll db (_col q) in
  let r := Queue.ping q now tok visibility db in
  ((exists d, In d c /\ ack d = Some tok /\ now < visible d /\ deleted d = None)
     <-> exists i, fst r = Ok i)
  /\ (forall i, fst r = Ok i ->
        exists pre d post,
          c = pre ++ d :: post /\ _id d = i
          /\ ack d = Some tok /\ now < visible d /\ deleted d = None
          /\ snd r = set_coll (_col q)
                       (pre ++ mkDoc (_id d) (payload d) (now + v * 1000) (tries d)
                                 (ack d) (deleted d) :: post) db)
  /\ ((forall d, In d c -> ~ (ack d = Some tok /\ now < visible d /\ deleted d = None)) ->
        r = (Err UnknownAck, db)).
Proof.
  intros v c r. subst v c r.
  destruct (Queue.ping q now tok visibility db) as [[i|e] db'] eqn:P; simpl.
  - destruct (ping_Ok _ _ _ _ _ _ _ P) as (pre & d & post & Hc & Hi & Ho & Hpre & ->).
    pose proof (proj1 (owned_true _ _ _) Ho) as (Ha & Hv & Hd).
    split; [|split].
    + split; [intros _; now exists i|]. intros _. exists d. rewrite Hc.
      split; [apply in_or_app; right; now left | now repeat split].
    + intros i' Hi'. inversion Hi'; subst i'. exists pre, d, post.
      now repeat split.
    + intros Hno. exfalso. apply (Hno d); [|now repeat split].
      rewrite Hc. apply in_or_app. right. now left.
  - destruct (ping_Err _ _ _ _ _ _ _ P) as (-> & -> & Hno).
    split; [|split].
    + split; [|intros [i Hi]; discriminate].
      intros (d & Hin & Ha & Hv & Hd). exfalso.
      specialize (Hno d Hin). assert (owned tok now d = true) by now apply owned_true.
      congruence.
    + intros i Hi. discriminate.
    + reflexivity.
Qed.

(** ** Produce *)

Lemma number_imap oid v ps :
  Collection.number oid (map (fun p => (p, v)) ps) = imap (fresh_doc oid v) ps.
Proof.
  revert oid. induction ps as [|p ps IH]; intros oid; simpl; [reflexivity|].
  unfold fresh_doc at 1. rewrite Nat.add_0_r. f_equal.
  rewrite IH. apply imap_ext. intros k x _. unfold fresh_doc. simpl.
  f_equal. lia.
Qed.

Lemma map_id_imap_fresh oid v ps :
  map _id (imap (fresh_doc oid v) ps) = imap (fun k _ => (oid + k)%nat) ps.
Proof.
  revert oid. induction ps as [|p ps IH]; intros oid; simpl; [reflexivity|].
  f_equal. transitivity (map _id (imap (fresh_doc (S oid) v) ps)).
  - f_equal. apply imap_ext. intros k x _. unfold fresh_doc. simpl. f_equal. lia.
  - rewrite IH. apply imap_ext. intros k x _. simpl. lia.
Qed.

Lemma add_unfold q now payload delay db :
  let s := match delay with Some s => s | None => _delay q end in
  Queue.add q now payload delay db =
  match _arr payload with
  | [] => (Err EmptyBatch, db)
  | _ :: _ =>
      (Ok (if isArray payload
           then Ids (imap (fun k _ => (next_oid db + k)%nat) (_arr payload))
           else match imap (fun k _ => (next_oid db + k)%nat) (_arr payload) with
                | i :: _ => Id i
                | [] => Undefined
                end),
       mkDb (<[_col q := coll db (_col q) ++ imap (fresh_doc (next_oid db) (now + s * 1000))
                            (_arr payload)]> (colls db))
            (next_oid db + length (_arr payload)))
  end.
Proof.
  intros s. subst s. unfold Queue.add, insertMany.
  set (s := match delay with Some s => s | None => _delay q end).
  assert ((if s =? 0 then now else _plusSecs now s) = now + s * 1000) as ->.
  { unfold _plusSecs. destruct (Z.eqb_spec s 0) as [->|]; lia. }
  destruct (_arr payload) as [|p ps]; [reflexivity|].
  set (l := p :: ps). change (map (fun p0 => (p0, now + s * 1000)) l)
    with ((p, now + s * 1000) :: map (fun p0 => (p0, now + s * 1000)) ps).
  cbv iota beta.
  change ((p, now + s * 1000) :: map (fun p0 => (p0, now + s * 1000)) ps)
    with (map (fun p0 => (p0, now + s * 1000)) l).
  rewrite number_imap, map_id_imap_fresh, length_map. reflexivity.
Qed.

(** The driver refuses the empty batch: [add([])] throws and stores nothing. *)
Lemma add_empty_batch q now delay db :
  Queue.add q now (JArr []) delay db = (Err EmptyBatch, db).
Proof. reflexivity. Qed.

Lemma add_colls q now payload delay db :
  let s := match delay with Some s => s | None => _delay q end in
  let db' := snd (Queue.add q now payload delay db) in
  coll db' (_col q)
  = coll db (_col q) ++ imap (fresh_doc (next_oid db) (now + s * 1000)) (_arr payload)
  /\ (forall name, name <> _col q -> coll db' name = coll db name)
  /\ next_oid db' = (next_oid db + length (_arr payload))%nat.
Proof.
  intros s db'. subst db'. rewrite add_unfold. fold s.
  destruct (_arr payload) as [|p ps] eqn:Harr; cbn [snd next_oid].
  - cbn [imap length]. rewrite app_nil_r, Nat.add_0_r. now repeat split.
  - split; [|split; [|reflexivity]].
    + unfold coll at 1. cbn [colls]. now rewrite lookup_insert_eq.
    + intros name Hne. unfold coll at 1. cbn [colls].
      rewrite lookup_insert_ne; [reflexivity|congruence].
Qed.

Lemma arr_not_array payload : isArray payload = false -> _arr payload = [payload].
Proof. destruct payload; simpl; intros H; try reflexivity; discriminate. Qed.

(** C8, as amended: [add] stores one record per payload, each with
    [tries = 0], no [ack], no [deleted] and [visible = now + delay] (the
    queue's default delay when none is given; [now] itself for a zero delay),
    after the records already there and in the order of the input.  It
    returns one id for a payload that is not an array, and for an array that
    is not empty the ids of its elements in order.  For the empty array the
    driver refuses the batch: [add] fails and the store is as it was. *)
Theorem add_one_record_per_payload q now payload delay db :
  let s := match delay with Some s => s | None => _delay q end in
  let v := now + s * 1000 in
  let r := Queue.add q now payload delay db in
  coll (snd r) (_col q) =
    coll db (_col q) ++ imap (fun k p => mkDoc (next_oid db + k) p v 0 None None) (_arr payload)
  /\ (forall name, name <> _col q -> coll (snd r) name = coll db name)
  /\ (s = 0 -> v = now)
  /\ (isArray payload = false ->
        _arr payload = [payload] /\ fst r = Ok (Id (next_oid db)))
  /\ (forall items, payload = JArr items ->
        _arr payload = items
        /\ (items <> [] ->
             fst r = Ok (Ids (imap (fun k _ => (next_oid db + k)%nat) items)))
        /\ (items = [] -> r = (Err EmptyBatch, db))
        /\ forall k, (k < length items)%nat ->
             exists p, items !! k = Some p
               /\ coll (snd r) (_col q) !! (length (coll db (_col q)) + k)%nat
                  = Some (mkDoc (next_oid db + k) p v 0 None None)).
Proof.
  intros s v r.
  pose proof (add_colls q now payload delay db) as H. cbv zeta in H.
  fold s in H. fold v in H. fold r in H. destruct H as (Hc & Hother & _).
  split; [exact Hc|]. split; [exact Hother|]. split; [|split].
  - intros Hs. subst v. rewrite Hs. lia.
  - intros Harr. split; [now apply arr_not_array|].
    subst r. rewrite add_unfold, (arr_not_array _ Harr), Harr.
    cbn [fst imap]. now rewrite Nat.add_0_r.
  - intros items Hp. rewrite Hc. subst payload. cbn [_arr].
    split; [reflexivity|]. split; [|split].
    + intros Hne. subst r. rewrite add_unfold. cbn [_arr isArray].
      destruct items; [congruence | reflexivity].
    + intros ->. reflexivity.
    + intros k Hk. destruct (lookup_lt_is_Some_2 items k Hk) as [p Hp].
      exists p. split; [exact Hp|].
      rewrite lookup_app_r by lia.
      replace (length (coll db (_col q)) + k - length (coll db (_col q)))%nat with k by lia.
      rewrite list_lookup_imap, Hp. reflexivity.
Qed.

(** C8, as stated, fails for the empty batch: [add([])] returns no sequence
    of ids, it fails with the driver's error and stores nothing. *)
Lemma add_empty_batch_is_refused :
  Queue.add plain_queue 1000 (JArr []) None empty_db = (Err EmptyBatch, empty_db)
  /\ Queue.total plain_queue (snd (Queue.add plain_queue 1000 (JArr []) None empty_db))
     = 0%nat.
Proof. split; reflexivity. Qed.

(** ** Consume: one round of [get] *)

Section GetRound.

Variables (q : Queue) (visibility : option Z) (env : Env) (db : Db).

Let v : Z := match visibility with Some s => s | None => _visibility q end.
Let now : Time := _now env 0%nat.
Let tok : Token := _ack env 0%nat.

Lemma get_round_empty fuel c' :
  Queue.claim q v now tok db = Ok (None, c') ->
  Queue.get (S fuel) q visibility env db = Some (Ok None, db).
Proof. intros H. simpl. fold v now tok. now rewrite H. Qed.

Lemma get_round_refused fuel e :
  Queue.claim q v now tok db = Err e ->
  Queue.get (S fuel) q visibility env db = Some (Err e, db).
Proof. intros H. simpl. fold v now tok. now rewrite H. Qed.

Lemma get_round_returns fuel msg c' :
  Queue.claim q v now tok db = Ok (Some msg, c') ->
  Queue.poisoned q msg = false ->
  Queue.get (S fuel) q visibility env db
  = Some (Ok (Some (Queue.to_msg msg)), set_coll (_col q) c' db).
Proof. intros H P. simpl. fold v now tok. now rewrite H, P. Qed.

Lemma get_round_moves fuel msg c' db2 :
  Queue.claim q v now tok db = Ok (Some msg, c') ->
  Queue.poisoned q msg = true ->
  Queue._moveToDLQ q now msg (set_coll (_col q) c' db) = (Ok tt, db2) ->
  Queue.get (S fuel) q visibility env db
  = Queue.get fuel q (Some v) (later env) db2.
Proof. intros H P M. simpl. fold v now tok. now rewrite H, P, M. Qed.

Lemma get_round_move_refused fuel msg c' e db2 :
  Queue.claim q v now tok db = Ok (Some msg, c') ->
  Queue.poisoned q msg = true ->
  Queue._moveToDLQ q now msg (set_coll (_col q) c' db) = (Err e, db2) ->
  Queue.get (S fuel) q visibility env db = Some (Err e, db2).
Proof. intros H P M. simpl. fold v now tok. now rewrite H, P, M. Qed.

End GetRound.

Lemma poisoned_true q msg :
  Queue.poisoned q msg = true <->
  (exists dq, _deadQueue q = Some dq) /\ _maxRetries q < Z.of_nat (tries msg).
Proof.
  unfold Queue.poisoned. destruct (_deadQueue q) as [dq|].
  - rewrite Z.ltb_lt. split; [intros H; split; [now exists dq | exact H] | tauto].
  - split; [discriminate | intros [[dq H] _]; discriminate].
Qed.

Lemma poisoned_false q msg :
  Queue.poisoned q msg = false <->
  _deadQueue q = None \/ Z.of_nat (tries msg) <= _maxRetries q.
Proof.
  unfold Queue.poisoned. destruct (_deadQueue q) as [dq|].
  - rewrite Z.ltb_ge. split; [now right | intros [H|H]; [discriminate | exact H]].
  - split; [now left | reflexivity].
Qed.

Lemma updateOne_set_deleted i now c :
  Collection.updateOne (has_id i) (mkUpdate 0 None None (Some now)) c
  = Collection.update_first (has_id i) (set_deleted_to now) c.
Proof.
  unfold Collection.updateOne. induction c as [|x c IH]; simpl; [reflexivity|].
  destruct (has_id i x); [now rewrite apply_set_deleted | now rewrite IH].
Qed.

Lemma insertOne_Ok d c c' :
  Collection.insertOne d c = Ok c' ->
  c' = c ++ [d]
  /\ (forall x, In x c -> _id x <> _id d)
  /\ (forall t x, ack d = Some t -> In x c -> ack x <> Some t).
Proof.
  unfold Collection.insertOne.
  destruct (existsb (has_id (_id d)) c) eqn:E; [discriminate|].
  assert (forall x, In x c -> _id x <> _id d) as Hid.
  { intros x Hx. apply has_id_false. destruct (has_id (_id d) x) eqn:Hx'; [|reflexivity].
    assert (existsb (has_id (_id d)) c = true) by (apply existsb_exists; eauto). congruence. }
  destruct (ack d) as [t|].
  - destruct (existsb (has_ack t) c) eqn:E'; [discriminate|].
    intros H. inversion H. repeat split; [exact Hid|].
    intros t' x Ht' Hx. inversion Ht'; subst t'. apply has_ack_false.
    destruct (has_ack t x) eqn:Hx'; [|reflexivity].
    assert (existsb (has_ack t) c = true) by (apply existsb_exists; eauto). congruence.
  - intros H. inversion H. repeat split; [exact Hid|]. intros t x Ht. discriminate.
Qed.

Lemma insertOne_fresh d c :
  (forall x, In x c -> _id x <> _id d) ->
  (forall t x, ack d = Some t -> In x c -> ack x <> Some t) ->
  Collection.insertOne d c = Ok (c ++ [d]).
Proof.
  intros Hid Hack. unfold Collection.insertOne.
  destruct (existsb (has_id (_id d)) c) eqn:E.
  - apply existsb_exists in E. destruct E as (x & Hx & Hi).
    apply has_id_true in Hi. now destruct (Hid x Hx).
  - destruct (ack d) as [t|]; [|reflexivity].
    destruct (existsb (has_ack t) c) eqn:E'; [|reflexivity].
    apply existsb_exists in E'. destruct E' as (x & Hx & Ha).
    apply has_ack_true in Ha. now destruct (Hack t x eq_refl Hx).
Qed.

(** A dead-letter move that succeeds appends the message, as it is, to the
    dead-letter collection and marks the source record. *)
Lemma moveToDLQ_Ok q dq now msg db db2 :
  _deadQueue q = Some dq ->
  Queue._moveToDLQ q now msg db = (Ok tt, db2) ->
  let db1 := set_coll (_col dq) (coll db (_col dq) ++ [msg]) db in
  db2 = set_coll (_col q)
          (Collection.update_first (has_id (_id msg)) (set_deleted_to now)
             (coll db1 (_col q))) db1
  /\ (forall x, In x (coll db (_col dq)) -> _id x <> _id msg)
  /\ (forall t x, ack msg = Some t -> In x (coll db (_col dq)) -> ack x <> Some t).
Proof.
  intros Hdq. unfold Queue._moveToDLQ. rewrite Hdq.
  assert (Queue.dlq_writes q dq now msg db = (Ok tt, db2) ->
          let db1 := set_coll (_col dq) (coll db (_col dq) ++ [msg]) db in
          db2 = set_coll (_col q)
                  (Collection.update_first (has_id (_id msg)) (set_deleted_to now)
                     (coll db1 (_col q))) db1
          /\ (forall x, In x (coll db (_col dq)) -> _id x <> _id msg)
          /\ (forall t x, ack msg = Some t -> In x (coll db (_col dq)) -> ack x <> Some t)) as W.
  { unfold Queue.dlq_writes.
    destruct (Collection.insertOne msg (coll db (_col dq))) as [cd|e] eqn:I; [|discriminate].
    destruct (insertOne_Ok _ _ _ I) as (-> & Hid & Hack).
    intros H. inversion H. split; [|now split].
    now rewrite updateOne_set_deleted. }
  destruct (_txnDLQ q); exact W.
Qed.

Lemma moveToDLQ_fresh q dq now msg db :
  _deadQueue q = Some dq ->
  (forall x, In x (coll db (_col dq)) -> _id x <> _id msg) ->
  (forall t x, ack msg = Some t -> In x (coll db (_col dq)) -> ack x <> Some t) ->
  let db1 := set_coll (_col dq) (coll db (_col dq) ++ [msg]) db in
  Queue._moveToDLQ q now msg db
  = (Ok tt, set_coll (_col q)
              (Collection.update_first (has_id (_id msg)) (set_deleted_to now)
                 (coll db1 (_col q))) db1).
Proof.
  intros Hdq Hid Hack db1. unfold Queue._moveToDLQ. rewrite Hdq.
  assert (Queue.dlq_writes q dq now msg db
          = (Ok tt, set_coll (_col q)
              (Collection.update_first (has_id (_id msg)) (set_deleted_to now)
                 (coll db1 (_col q))) db1)) as W.
  { unfold Queue.dlq_writes. rewrite (insertOne_fresh _ _ Hid Hack). fold db1.
    now rewrite updateOne_set_deleted. }
  destruct (_txnDLQ q); exact W.
Qed.

Lemma moveToDLQ_Err q now msg db e db2 :
  Queue._moveToDLQ q now msg db = (Err e, db2) -> db2 = db.
Proof.
  unfold Queue._moveToDLQ. destruct (_deadQueue q) as [dq|]; [|discriminate].
  assert (Queue.dlq_writes q dq now msg db = (Err e, db2) -> db2 = db) as W.
  { unfold Queue.dlq_writes. destruct (Collection.insertOne _ _); [discriminate|].
    intros H. now inversion H. }
  destruct (_txnDLQ q); exact W.
Qed.

Lemma apply_claim_update now tok v d :
  apply_update (Queue.claim_update now tok v) d = claimed now tok v d.
Proof.
  unfold apply_update, claimed, Queue.claim_update, _plusSecs. simpl.
  now rewrite Nat.add_1_r.
Qed.

Lemma claim_single q v now tok db d :
  coll db (_col q) = [d] -> claimable now d = true ->
  Queue.claim q v now tok db = Ok (Some (claimed now tok v d), [claimed now tok v d]).
Proof.
  intros Hc Hd. unfold Queue.claim, Collection.findOneAndUpdate, Collection.pick.
  rewrite Hc. simpl. rewrite Hd. simpl.
  assert (has_id (_id d) d = true) as Hi by now apply has_id_true.
  unfold Collection.ack_taken. simpl. rewrite Hi, andb_false_r. simpl.
  now rewrite apply_claim_update.
Qed.

(** ** Round trip *)

(** C5, as amended: a payload that is not an array, added to an empty
    queue that has no dead-letter queue or allows at least one retry, comes
    back from the next [get] unchanged and with [tries = 1]. *)
Theorem add_get_round_trip fuel q t0 payload delay visibility env db :
  isArray payload = false ->
  coll db (_col q) = [] ->
  _deadQueue q = None \/ 1 <= _maxRetries q ->
  t0 + (match delay with Some s => s | None => _delay q end) * 1000 <= _now env 0%nat ->
  exists db2,
    Queue.get (S fuel) q visibility env (snd (Queue.add q t0 payload delay db))
    = Some (Ok (Some {| Msg.id := next_oid db; Msg.ack := Some (_ack env 0%nat);
                        Msg.payload := payload; Msg.tries := 1 |}), db2).
Proof.
  intros Harr Hempty Hretry Hvis.
  pose proof (add_colls q t0 payload delay db) as H. cbv zeta in H.
  destruct H as (Hc & _ & _).
  set (db1 := snd (Queue.add q t0 payload delay db)) in *.
  rewrite (arr_not_array _ Harr), Hempty in Hc. cbn [imap app] in Hc.
  unfold fresh_doc in Hc. rewrite Nat.add_0_r in Hc.
  set (d := mkDoc (next_oid db) payload
              (t0 + (match delay with Some s => s | None => _delay q end) * 1000) 0 None None)
    in Hc.
  assert (claimable (_now env 0%nat) d = true) as Hd by (apply claimable_true; now split).
  eexists. rewrite (get_round_returns q visibility env db1 fuel _ _
                      (claim_single q _ _ _ db1 d Hc Hd)).
  - reflexivity.
  - apply poisoned_false. destruct Hretry as [H|H]; [now left | right; simpl; lia].
Qed.

Lemma add_get_round_trip_witness :
  exists db2,
    Queue.get 1 plain_queue None (at_time 1000)
      (snd (Queue.add plain_queue 1000 (JObj [("to", JStr "user")]) None empty_db))
    = Some (Ok (Some {| Msg.id := 0; Msg.ack := Some "a";
                        Msg.payload := JObj [("to", JStr "user")]; Msg.tries := 1 |}), db2).
Proof.
  apply (add_get_round_trip 0%nat plain_queue 1000 (JObj [("to", JStr "user")]) None None
           (at_time 1000) empty_db); [reflexivity | reflexivity | now left | simpl; lia].
Defined.

(** C5, as stated, fails for an array: [add] takes it as a batch and
    [get] returns its first element. *)
Lemma array_payload_is_a_batch :
  exists db2,
    Queue.get 1 plain_queue None (at_time 1000)
      (snd (Queue.add plain_queue 1000 (JArr [JStr "a"]) None empty_db))
    = Some (Ok (Some {| Msg.id := 0; Msg.ack := Some "a";
                        Msg.payload := JStr "a"; Msg.tries := 1 |}), db2)
    /\ JStr "a" <> JArr [JStr "a"].
Proof. eexists. split; [vm_compute; reflexivity | discriminate]. Qed.

(** ** Dead-lettering *)

(** Whatever a [get] adds to a collection other than its own was a claimed
    message that the dead-letter check caught. *)
Lemma get_moves_only_poisoned fuel : forall q visibility env db r db' name m,
  Queue.get fuel q visibility env db = Some (r, db') ->
  name <> _col q ->
  In m (coll db' name) ->
  In m (coll db name)
  \/ ((exists dq, _deadQueue q = Some dq /\ name = _col dq)
      /\ _maxRetries q < Z.of_nat (tries m)).
Proof.
  induction fuel as [|fuel IH]; intros q visibility env db r db' name m H Hne Hin;
    [discriminate|].
  simpl in H.
  destruct (Queue.claim _ _ _ _ _) as [[[msg|] c']|e] eqn:C.
  - destruct (Queue.poisoned q msg) eqn:P.
    + destruct (Queue._moveToDLQ _ _ _ _) as [[[]|e] db2] eqn:M.
      * destruct (IH _ _ _ _ _ _ _ _ H Hne Hin) as [Hin2|Hr]; [|now right].
        apply poisoned_true in P. destruct P as [[dq Hdq] Hmax].
        destruct (moveToDLQ_Ok _ _ _ _ _ _ Hdq M) as (-> & _ & _).
        rewrite coll_set_coll_ne in Hin2 by congruence.
        destruct (String.eqb_spec (_col dq) name) as [<-|Hne'].
        -- rewrite coll_set_coll_eq in Hin2.
           rewrite coll_set_coll_ne in Hin2 by congruence.
           apply in_app_or in Hin2. destruct Hin2 as [Hin2|[<-|[]]]; [now left|].
           right. split; [now exists dq | exact Hmax].
        -- left. rewrite !coll_set_coll_ne in Hin2 by congruence. exact Hin2.
      * inversion H; subst. apply moveToDLQ_Err in M. subst db'.
        left. now rewrite coll_set_coll_ne in Hin by congruence.
    + inversion H; subst. left. now rewrite coll_set_coll_ne in Hin by congruence.
  - inversion H; subst. now left.
  - inversion H; subst. now left.
Qed.

(** With no retry allowed, the very first claim of a record is over budget. *)
Lemma first_get_moves fuel q dq t0 payload delay visibility env db :
  _deadQueue q = Some dq -> _maxRetries q < 1 -> _col dq <> _col q ->
  isArray payload = false ->
  coll db (_col q) = [] -> coll db (_col dq) = [] ->
  t0 + (match delay with Some s => s | None => _delay q end) * 1000 <= _now env 0%nat ->
  let m := mkDoc (next_oid db) payload
             (_now env 0%nat
              + (match visibility with Some s => s | None => _visibility q end) * 1000)
             1 (Some (_ack env 0%nat)) None in
  exists db2,
    Queue.get (S (S fuel)) q visibility env (snd (Queue.add q t0 payload delay db))
    = Some (Ok None, db2)
    /\ coll db2 (_col dq) = [m]
    /\ coll db2 (_col q) = [set_deleted_to (_now env 0%nat) m].
Proof.
  intros Hdq Hmax Hne Harr Hq Hd Hvis m.
  pose proof (add_colls q t0 payload delay db) as H. cbv zeta in H.
  destruct H as (Hc & Hother & _).
  set (db1 := snd (Queue.add q t0 payload delay db)) in *.
  rewrite (arr_not_array _ Harr), Hq in Hc. cbn [imap app] in Hc.
  unfold fresh_doc in Hc. rewrite Nat.add_0_r in Hc.
  set (d := mkDoc _ _ _ _ _ _) in Hc.
  assert (claimable (_now env 0%nat) d = true) as Hcl by (apply claimable_true; now split).
  pose proof (claim_single q
                (match visibility with Some s => s | None => _visibility q end)
                _ (_ack env 0%nat) db1 d Hc Hcl) as C.
  change (claimed _ _ _ d) with m in C.
  assert (Queue.poisoned q m = true) as P.
  { apply poisoned_true. split; [now exists dq | simpl; lia]. }
  assert (coll (set_coll (_col q) [m] db1) (_col dq) = []) as Hd1.
  { rewrite coll_set_coll_ne by congruence. rewrite Hother by congruence. exact Hd. }
  pose proof (moveToDLQ_fresh q dq (_now env 0%nat) m (set_coll (_col q) [m] db1) Hdq) as M.
  rewrite Hd1 in M. cbv zeta in M.
  rewrite coll_set_coll_ne, coll_set_coll_eq in M by congruence.
  specialize (M (fun x (Hx : In x []) => match Hx with end)
                (fun t x _ (Hx : In x []) => match Hx with end)).
  simpl in M. unfold has_id in M. simpl in M. rewrite Nat.eqb_refl in M.
  eexists. rewrite (get_round_moves q visibility env db1 (S fuel) _ _ _ C P M).
  rewrite get_no_claimable.
  - split; [reflexivity|]. split.
    + rewrite coll_set_coll_ne by congruence. now rewrite coll_set_coll_eq.
    + now rewrite coll_set_coll_eq.
  - intros x. rewrite coll_set_coll_eq. intros [<-|[]]. reflexivity.
Qed.

(** With a dead-letter queue and [maxRetries < 1] every claim is over budget:
    [get] hands out no message at all, whatever the store holds. *)
Theorem get_without_retries_returns_no_message fuel : forall q dq visibility env db r db',
  _deadQueue q = Some dq -> _maxRetries q < 1 ->
  Queue.get fuel q visibility env db = Some (r, db') ->
  r = Ok None \/ exists e, r = Err e.
Proof.
  induction fuel as [|fuel IH]; intros q dq visibility env db r db' Hdq Hmax H;
    [discriminate|].
  simpl in H.
  destruct (Queue.claim _ _ _ _ _) as [[[msg|] c']|e] eqn:C.
  - assert (Queue.poisoned q msg = true) as P.
    { unfold Queue.claim in C.
      destruct (findOneAndUpdate_found _ _ _ _ _ _ C) as (pre & d & post & _ & _ & -> & _).
      apply poisoned_true. split; [now exists dq|].
      rewrite apply_claim_update. simpl. lia. }
    rewrite P in H.
    destruct (Queue._moveToDLQ _ _ _ _) as [[[]|e] db2] eqn:M.
    + exact (IH _ _ _ _ _ _ _ Hdq Hmax H).
    + inversion H. right. now exists e.
  - inversion H. now left.
  - inversion H. right. now exists e.
Qed.

Lemma get_without_retries_witness :
  (Ok None : Res (option Msg.t)) = Ok None
  \/ exists e, (Ok None : Res (option Msg.t)) = Err e.
Proof.
  refine (get_without_retries_returns_no_message 2 jobs_queue dead_queue None
            (at_time 1000) jobs_db (Ok None)
            (match Queue.get 2 jobs_queue None (at_time 1000) jobs_db with
             | Some (_, d) => d
             | None => empty_db
             end) eq_refl _ _).
  - simpl. lia.
  - vm_compute. reflexivity.
Defined.

(** C1, as amended: with a dead-letter queue and [maxRetries = 0], the first
    [get] after [add] claims the job ([tries] becomes 1), finds 1 > 0, moves
    the job to the dead-letter queue and returns the empty result.  And a
    record only enters another collection through [get] when a dead-letter
    queue is configured and its [tries], after the increment, exceeds
    [maxRetries]. *)
Theorem first_get_without_retries_dead_letters
    fuel q dq t0 payload delay visibility env db :
  _deadQueue q = Some dq -> _maxRetries q = 0 -> _col dq <> _col q ->
  isArray payload = false ->
  coll db (_col q) = [] -> coll db (_col dq) = [] ->
  t0 + (match delay with Some s => s | None => _delay q end) * 1000 <= _now env 0%nat ->
  let m := mkDoc (next_oid db) payload
             (_now env 0%nat
              + (match visibility with Some s => s | None => _visibility q end) * 1000)
             1 (Some (_ack env 0%nat)) None in
  (exists db2,
     Queue.get (S (S fuel)) q visibility env (snd (Queue.add q t0 payload delay db))
     = Some (Ok None, db2)
     /\ coll db2 (_col dq) = [m]
     /\ coll db2 (_col q) = [set_deleted_to (_now env 0%nat) m])
  /\ (forall fuel' q' visibility' env' db0 r db' name x,
        Queue.get fuel' q' visibility' env' db0 = Some (r, db') ->
        name <> _col q' ->
        In x (coll db' name) ->
        In x (coll db0 name)
        \/ ((exists dq', _deadQueue q' = Some dq' /\ name = _col dq')
            /\ _maxRetries q' < Z.of_nat (tries x))).
Proof.
  intros Hdq Hmax Hne Harr Hq Hd Hvis m. split.
  - apply first_get_moves; try assumption. lia.
  - intros fuel'. apply get_moves_only_poisoned.
Qed.

Lemma first_get_without_retries_witness :
  exists db2,
    Queue.get 2 jobs_queue None (at_time 1000)
      (snd (Queue.add jobs_queue 1000 (JStr "job1") None empty_db))
    = Some (Ok None, db2)
    /\ coll db2 "dead" = [mkDoc 0 (JStr "job1") 2000 1 (Some "a") None]
    /\ coll db2 "jobs" = [mkDoc 0 (JStr "job1") 2000 1 (Some "a") (Some 1000)].
Proof.
  apply (proj1 (first_get_without_retries_dead_letters 0%nat jobs_queue dead_queue 1000
                  (JStr "job1") None None (at_time 1000) empty_db
                  eq_refl eq_refl ltac:(discriminate) eq_refl eq_refl eq_refl
                  ltac:(simpl; lia))).
Defined.

(** C1, as stated, fails: in the scenario of the specification the first
    [get] returns nothing and the job is already in the dead-letter queue. *)
Lemma first_get_returns_nothing :
  exists db2,
    Queue.get 2 jobs_queue None (at_time 1000)
      (snd (Queue.add jobs_queue 1000 (JStr "job1") None empty_db))
    = Some (Ok None, db2)
    /\ coll db2 "dead" = [mkDoc 0 (JStr "job1") 2000 1 (Some "a") None].
Proof. eexists. split; vm_compute; reflexivity. Qed.

(** ** Termination of the skip-on-poison recursion *)

Lemma countDocuments_split p pre x post :
  Collection.countDocuments p (pre ++ x :: post)
  = (Collection.countDocuments p pre + (if p x then 1 else 0)
     + Collection.countDocuments p post)%nat.
Proof.
  unfold Collection.countDocuments. rewrite List.filter_app, length_app. simpl.
  destruct (p x); simpl; lia.
Qed.

Lemma NoDup_ids_split pre (d : Doc) post :
  NoDup (map _id (pre ++ d :: post)) ->
  forall x, In x pre -> has_id (_id d) x = false.
Proof.
  rewrite map_app. simpl. intros H x Hx. apply has_id_false. intros E.
  apply NoDup_ListNoDup, List.NoDup_remove_2 in H. apply H. apply in_or_app. left.
  rewrite <- E. now apply in_map.
Qed.

Lemma NoDup_ids_others pre (d : Doc) post :
  NoDup (map _id (pre ++ d :: post)) ->
  forall x, In x (pre ++ post) -> _id x <> _id d.
Proof.
  rewrite map_app. simpl. intros H x Hx E.
  apply NoDup_ListNoDup, List.NoDup_remove_2 in H. apply H.
  rewrite <- E, <- map_app. now apply in_map.
Qed.

(** A claim that succeeds: the record it took, and what it wrote. *)
Lemma claim_found q v now tok db msg c' :
  NoDup (map _id (coll db (_col q))) ->
  Queue.claim q v now tok db = Ok (Some msg, c') ->
  exists pre d post,
    coll db (_col q) = pre ++ d :: post
    /\ claimable now d = true
    /\ (forall x, In x (coll db (_col q)) -> claimable now x = true -> (_id d <= _id x)%nat)
    /\ msg = claimed now tok v d
    /\ c' = pre ++ msg :: post
    /\ (forall x, In x (pre ++ post) -> ack x <> Some tok).
Proof.
  intros Hnd C. unfold Queue.claim in C.
  destruct (findOneAndUpdate_found _ _ _ _ _ _ C)
    as (pre & d & post & Hc & Hd & Hm & -> & _ & Htaken & Hmin & _).
  rewrite apply_claim_update in Hm. subst msg.
  exists pre, d, post. repeat split; try assumption; [now apply Hmin|].
  intros x Hx Hxt. rewrite Hc in Hnd.
  apply (NoDup_ids_others _ _ _ Hnd x Hx).
  unfold Collection.ack_taken in Htaken. simpl in Htaken.
  destruct (Nat.eq_dec (_id x) (_id d)) as [E|E]; [exact E|exfalso].
  assert (existsb (fun d' => has_ack tok d' && negb (has_id (_id d) d')) (coll db (_col q))
          = true) as Hex; [|congruence].
  apply existsb_exists. exists x. split.
  - rewrite Hc. apply in_app_or in Hx. apply in_or_app. simpl. tauto.
  - apply andb_true_iff. split; [now apply has_ack_true|].
    apply negb_true_iff. now apply has_id_false.
Qed.

(** One round of [get] that dead-letters its claim: the shape of the two
    collections afterwards. *)
Lemma poison_round q dq v now tok db msg c' db2 :
  NoDup (map _id (coll db (_col q))) ->
  _deadQueue q = Some dq ->
  Queue.claim q v now tok db = Ok (Some msg, c') ->
  Queue._moveToDLQ q now msg (set_coll (_col q) c' db) = (Ok tt, db2) ->
  exists pre d post,
    coll db (_col q) = pre ++ d :: post
    /\ claimable now d = true
    /\ (forall x, In x (coll db (_col q)) -> claimable now x = true -> (_id d <= _id x)%nat)
    /\ msg = claimed now tok v d
    /\ _col dq <> _col q
    /\ coll db2 (_col q) = pre ++ set_deleted_to now msg :: post
    /\ coll db2 (_col dq) = coll db (_col dq) ++ [msg]
    /\ (forall name, name <> _col q -> name <> _col dq -> coll db2 name = coll db name)
    /\ next_oid db2 = next_oid db
    /\ (forall x, In x (pre ++ post) -> ack x <> Some tok)
    /\ (forall x, In x (coll db (_col dq)) -> _id x <> _id d /\ ack x <> Some tok).
Proof.
  intros Hnd Hdq C M.
  destruct (claim_found _ _ _ _ _ _ _ Hnd C)
    as (pre & d & post & Hc & Hd & Hmin & -> & -> & Hfresh).
  destruct (moveToDLQ_Ok _ _ _ _ _ _ Hdq M) as (-> & Hid & Hack).
  assert (_col dq <> _col q) as Hne.
  { intros E. rewrite E, coll_set_coll_eq in Hid.
    apply (Hid (claimed now tok v d)); [|reflexivity].
    apply in_or_app. right. now left. }
  rewrite coll_set_coll_ne in Hid, Hack by congruence.
  exists pre, d, post. repeat split; try assumption.
  - rewrite coll_set_coll_eq, coll_set_coll_ne, coll_set_coll_eq by congruence.
    apply update_first_split; [now apply has_id_true|].
    rewrite Hc in Hnd. exact (NoDup_ids_split _ _ _ Hnd).
  - rewrite coll_set_coll_ne, coll_set_coll_eq by congruence.
    now rewrite coll_set_coll_ne by congruence.
  - intros name H1 H2. now rewrite !coll_set_coll_ne by congruence.
  - now apply (Hid x).
  - now apply (Hack tok x).
Qed.

Lemma poison_round_ids pre d post now msg :
  _id msg = _id d ->
  map _id (pre ++ set_deleted_to now msg :: post) = map _id (pre ++ d :: post).
Proof. intros E. rewrite !map_app. simpl. now rewrite E. Qed.

(** [get] returns whenever its fuel exceeds [n], for any measure [mu] of the
    source collection that every dead-letter round decreases. *)
Lemma get_returns_by_measure
    (steady : Env -> Prop) (mu : Env -> list Doc -> nat)
    (Hlater : forall env, steady env -> steady (later env))
    (Hdec : forall env pre d post now msg,
        steady env ->
        now = _now env 0%nat -> claimable now d = true -> _id msg = _id d ->
        (mu (later env) (pre ++ set_deleted_to now msg :: post)
         < mu env (pre ++ d :: post))%nat) :
  forall n q visibility env db,
    steady env ->
    NoDup (map _id (coll db (_col q))) ->
    (mu env (coll db (_col q)) <= n)%nat ->
    is_Some (Queue.get (S n) q visibility env db).
Proof.
  induction n as [|n IH]; intros q visibility env db Hs Hnd Hmu.
  - simpl. destruct (Queue.claim _ _ _ _ _) as [[[msg|] c']|e] eqn:C; [|eexists; reflexivity ..].
    destruct (Queue.poisoned q msg) eqn:P; [|eexists; reflexivity].
    destruct (Queue._moveToDLQ _ _ _ _) as [[[]|e] db2] eqn:M; [|eexists; reflexivity].
    exfalso. apply poisoned_true in P. destruct P as [[dq Hdq] _].
    destruct (poison_round _ _ _ _ _ _ _ _ _ Hnd Hdq C M)
      as (pre & d & post & Hc & Hd & _ & Hm & _ & Hc2 & _).
    pose proof (Hdec env pre d post _ msg Hs eq_refl Hd) as Hlt.
    rewrite Hm in Hlt. specialize (Hlt eq_refl). rewrite <- Hc in Hlt. lia.
  - change (Queue.get (S (S n)) q visibility env db) with
      (let visibility' := match visibility with Some s => s | None => _visibility q end in
       let now := _now env 0%nat in
       match Queue.claim q visibility' now (_ack env 0%nat) db with
       | Err e => Some (Err e, db)
       | Ok (None, _) => Some (Ok None, db)
       | Ok (Some msg, c') =>
           let db1 := set_coll (_col q) c' db in
           if Queue.poisoned q msg then
             match Queue._moveToDLQ q now msg db1 with
             | (Err e, db2) => Some (Err e, db2)
             | (Ok _, db2) => Queue.get (S n) q (Some visibility') (later env) db2
             end
           else Some (Ok (Some (Queue.to_msg msg)), db1)
       end).
    cbv zeta.
    destruct (Queue.claim _ _ _ _ _) as [[[msg|] c']|e] eqn:C; [|eexists; reflexivity ..].
    destruct (Queue.poisoned q msg) eqn:P; [|eexists; reflexivity].
    destruct (Queue._moveToDLQ _ _ _ _) as [[[]|e] db2] eqn:M; [|eexists; reflexivity].
    apply poisoned_true in P. destruct P as [[dq Hdq] _].
    destruct (poison_round _ _ _ _ _ _ _ _ _ Hnd Hdq C M)
      as (pre & d & post & Hc & Hd & _ & Hm & _ & Hc2 & _).
    pose proof (Hdec env pre d post _ msg Hs eq_refl Hd) as Hlt.
    rewrite Hm in Hlt. specialize (Hlt eq_refl). rewrite <- Hc in Hlt.
    apply IH.
    + now apply Hlater.
    + rewrite Hc2, Hc in *. rewrite (poison_round_ids pre d post); [exact Hnd|].
      now rewrite Hm.
    + rewrite Hc2. rewrite <- Hm in Hlt. lia.
Qed.

Lemma claimable_not_deleted now d : claimable now d = true -> not_deleted d = true.
Proof.
  intros H. apply claimable_true in H. destruct H as [H _].
  unfold not_deleted, is_deleted. now rewrite H.
Qed.

Lemma claimable_set_deleted t now d : claimable t (set_deleted_to now d) = false.
Proof. reflexivity. Qed.

Lemma claimable_mono t t' d : t <= t' -> claimable t d = true -> claimable t' d = true.
Proof. rewrite !claimable_true. intros Ht [H1 H2]. split; [exact H1 | lia]. Qed.

(** C6, as amended: the recursion of [get] ends.  A recursive call is made
    only after a dead-letter move, which marks the record just claimed as
    deleted; the records still claimable are one fewer, and so are the
    records not yet deleted.  Hence [get] returns after at most one recursive
    call per record not yet deleted, whatever the clock and the tokens.  Each
    recursive call reads the clock again: the recursive calls are at most one
    per record claimable at an instant [t] that no reading of the call
    exceeds, and so one per record claimable when the call began if the clock
    reads the same instant throughout. *)
Theorem get_terminates q visibility db :
  NoDup (map _id (coll db (_col q))) ->
  (forall env extra,
     is_Some (Queue.get (S (Collection.countDocuments not_deleted (coll db (_col q)) + extra))
                q visibility env db))
  /\ (forall env t extra,
        (forall k, _now env k <= t) ->
        is_Some (Queue.get (S (Queue.size q t db + extra)) q visibility env db))
  /\ (forall t toks extra,
        is_Some (Queue.get (S (Queue.size q t db + extra)) q visibility
                   (mkEnv (fun _ => t) toks) db))
  /\ (forall v now tok msg c' db2,
        Queue.claim q v now tok db = Ok (Some msg, c') ->
        Queue.poisoned q msg = true ->
        Queue._moveToDLQ q now msg (set_coll (_col q) c' db) = (Ok tt, db2) ->
        (exists d, In d (coll db2 (_col q)) /\ _id d = _id msg /\ deleted d = Some now)
        /\ (forall t, now <= t -> S (Queue.size q t db2) = Queue.size q t db)
        /\ S (Collection.countDocuments not_deleted (coll db2 (_col q)))
           = Collection.countDocuments not_deleted (coll db (_col q))).
Proof.
  intros Hnd.
  assert (forall env t extra,
            (forall k, _now env k <= t) ->
            is_Some (Queue.get (S (Queue.size q t db + extra)) q visibility env db))
    as Hbound.
  { intros env t extra Henv.
    apply (get_returns_by_measure (fun e => forall k, _now e k <= t)
             (fun _ c => Collection.countDocuments (claimable t) c)); auto.
    + intros e He k. apply He.
    + intros e pre d post now msg He Hnow Hd _. rewrite !countDocuments_split.
      assert (now <= t) as Hle by (rewrite Hnow; apply He).
      rewrite (claimable_mono _ _ _ Hle Hd), claimable_set_deleted. lia.
    + unfold Queue.size. lia. }
  split; [|split; [exact Hbound|split]].
  - intros env extra.
    apply (get_returns_by_measure (fun _ => True)
             (fun _ c => Collection.countDocuments not_deleted c)); auto; [|lia].
    intros e pre d post now msg _ _ Hd _. rewrite !countDocuments_split.
    rewrite (claimable_not_deleted _ _ Hd). simpl. lia.
  - intros t toks extra. apply Hbound. intros k. simpl. lia.
  - intros v now tok msg c' db2 C P M.
    apply poisoned_true in P. destruct P as [[dq Hdq] _].
    destruct (poison_round _ _ _ _ _ _ _ _ _ Hnd Hdq C M)
      as (pre & d & post & Hc & Hd & _ & Hm & _ & Hc2 & _).
    split; [|split].
    + exists (set_deleted_to now msg). rewrite Hc2.
      split; [apply in_or_app; right; now left | now split].
    + intros t Ht. unfold Queue.size. rewrite Hc2, Hc, !countDocuments_split.
      rewrite (claimable_mono _ _ _ Ht Hd), claimable_set_deleted. lia.
    + rewrite Hc2, Hc, !countDocuments_split.
      rewrite (claimable_not_deleted _ _ Hd). simpl. lia.
Qed.

Lemma get_terminates_witness :
  is_Some (Queue.get 3 jobs_queue None (at_time 5000)
             (set_coll "jobs"
                [mkDoc 0 (JStr "x") 1000 1 (Some "p") None;
                 mkDoc 1 (JStr "y") 1000 3 (Some "q") None] empty_db)).
Proof.
  apply (proj1 (proj2 (proj2 (get_terminates jobs_queue None
           (set_coll "jobs"
                [mkDoc 0 (JStr "x") 1000 1 (Some "p") None;
                 mkDoc 1 (JStr "y") 1000 3 (Some "q") None] empty_db)
           ltac:(rewrite coll_set_coll_eq; apply NoDup_ListNoDup; simpl;
                 repeat constructor; simpl; intuition discriminate))))
         5000 token_of 0%nat).
Defined.

(** C6, as stated, fails when the clock advances between the recursive calls:
    one record is claimable when [get] begins, a delayed one becomes visible
    a millisecond later, and [get] dead-letters both.  Two calls do not
    reach a result; the third returns. *)
Lemma get_recursion_outruns_claimable :
  Queue.size jobs_queue (_now ticking 0%nat) staggered_db = 1%nat
  /\ Queue.get 2 jobs_queue None ticking staggered_db = None
  /\ exists db',
       Queue.get 3 jobs_queue None ticking staggered_db = Some (Ok None, db')
       /\ map _id (coll db' "dead") = [0%nat; 1%nat].
Proof.
  split; [reflexivity|]. split; [vm_compute; reflexivity|].
  eexists. split; vm_compute; reflexivity.
Qed.

(** ** The dead-letter copy *)

Lemma claim_picks q v now tok db d :
  Collection.pick true (claimable now) (coll db (_col q)) = Some d ->
  (forall x, In x (coll db (_col q)) -> ack x = Some tok -> _id x = _id d) ->
  exists c', Queue.claim q v now tok db = Ok (Some (claimed now tok v d), c').
Proof.
  intros P Hfree. unfold Queue.claim, Collection.findOneAndUpdate. rewrite P.
  assert (Collection.ack_taken (Queue.claim_update now tok v) d (coll db (_col q)) = false) as ->.
  { unfold Collection.ack_taken. simpl.
    destruct (existsb _ _) eqn:E; [|reflexivity].
    apply existsb_exists in E. destruct E as (x & Hx & Hb).
    apply andb_true_iff in Hb. destruct Hb as [Ha Hi].
    apply has_ack_true in Ha. apply negb_true_iff, has_id_false in Hi.
    now destruct (Hi (Hfree x Hx Ha)). }
  rewrite apply_claim_update. eexists. reflexivity.
Qed.



(** The scenario run to its end: the first [get] returns nothing; the
    dead-letter queue hides the job until time 2000 and then hands it out
    with [tries = 2]. *)
Example dead_letter_scenario :
  exists db2,
    Queue.get 2 jobs_queue None (at_time 1000) jobs_db = Some (Ok None, db2)
    /\ Queue.get 1 dead_queue None (at_time 1999) db2 = Some (Ok None, db2)
    /\ exists db3,
         Queue.get 1 dead_queue None (mkEnv (fun _ => 2000) (fun _ => "b")) db2
         = Some (Ok (Some {| Msg.id := 0; Msg.ack := Some "b";
                             Msg.payload := JStr "job1"; Msg.tries := 2 |}), db3).
Proof.
  eexists. split; [vm_compute; reflexivity|].
  split; [vm_compute; reflexivity|].
  eexists. vm_compute. reflexivity.
Qed.

(** * Reachable stores and their invariants *)

Section WfColl.

Lemma in_omap_ack (c : list Doc) x t : In x c -> ack x = Some t -> t ∈ omap ack c.
Proof.
  intros Hx Ht. apply list_elem_of_omap. exists x. split; [|exact Ht].
  now apply list_elem_of_In.
Qed.

Lemma omap_ack_cons d (c : list Doc) :
  omap ack (d :: c) = match ack d with Some t => t :: omap ack c | None => omap ack c end.
Proof. reflexivity. Qed.

Lemma wf_coll_nil bound : wf_coll bound [].
Proof.
  split; simpl; try (intros d []). - constructor. - constructor.
Qed.

Lemma wf_coll_mono bound bound' c :
  (bound <= bound')%nat -> wf_coll bound c -> wf_coll bound' c.
Proof.
  intros Hle [H1 H2 H3 H4 H5]. split; try assumption.
  intros d Hd. specialize (H2 d Hd). lia.
Qed.

(** Uniqueness of tokens, read at a position of the collection. *)
Lemma wf_acks_split pre (d : Doc) post t :
  NoDup (omap ack (pre ++ d :: post)) -> ack d = Some t ->
  forall x, In x (pre ++ post) -> ack x <> Some t.
Proof.
  rewrite omap_app, omap_ack_cons. intros H Ht x Hx Hxt. rewrite Ht in H.
  apply NoDup_app in H. destruct H as (_ & Hdisj & Hpost).
  apply NoDup_cons in Hpost. destruct Hpost as [Hnot _].
  apply in_app_or in Hx. destruct Hx as [Hx|Hx].
  - apply (Hdisj t); [now apply in_omap_ack with x | now left].
  - apply Hnot. now apply in_omap_ack with x.
Qed.

(** Rewriting one record in place, keeping its [_id]. *)
Lemma wf_coll_replace bound pre d d' post :
  wf_coll bound (pre ++ d :: post) ->
  _id d' = _id d ->
  (ack d' = ack d
   \/ exists t, ack d' = Some t /\ forall x, In x (pre ++ post) -> ack x <> Some t) ->
  (ack d' = None <-> tries d' = 0%nat) ->
  (deleted d' <> None -> ack d' <> None) ->
  wf_coll bound (pre ++ d' :: post).
Proof.
  intros [H1 H2 H3 H4 H5] Hid Hack Hcl Hdel. split.
  - rewrite map_app in *. simpl in *. now rewrite Hid.
  - intros x Hx. apply in_app_or in Hx. destruct Hx as [Hx|[<-|Hx]].
    + apply H2. apply in_or_app. now left.
    + rewrite Hid. apply H2. apply in_or_app. right. now left.
    + apply H2. apply in_or_app. right. now right.
  - destruct Hack as [E|(t & Ht & Hfresh)].
    + rewrite omap_app, omap_ack_cons in *. now rewrite E.
    + rewrite omap_app, omap_ack_cons in *. rewrite Ht.
      assert (NoDup (omap ack pre) /\ NoDup (omap ack post)
              /\ forall y, y ∈ omap ack pre -> y ∉ omap ack post) as (Np & Nq & Hd).
      { apply NoDup_app in H3. destruct H3 as (Np & Hdisj & Nq).
        destruct (ack d) as [t0|].
        - apply NoDup_cons in Nq. split; [exact Np|]. split; [tauto|].
          intros y Hy Hy'. apply (Hdisj y Hy). now right.
        - now repeat split. }
      apply NoDup_app. split; [exact Np|]. split.
      * intros y Hy Hy'. apply elem_of_cons in Hy'. destruct Hy' as [->|Hy'].
        -- apply list_elem_of_omap in Hy. destruct Hy as (x & Hx & Hxt).
           apply (Hfresh x); [|exact Hxt]. apply in_or_app. left.
           now apply list_elem_of_In.
        -- now apply (Hd y).
      * apply NoDup_cons. split; [|exact Nq]. intros Hy.
        apply list_elem_of_omap in Hy. destruct Hy as (x & Hx & Hxt).
        apply (Hfresh x); [|exact Hxt]. apply in_or_app. right.
        now apply list_elem_of_In.
  - intros x Hx. apply in_app_or in Hx. destruct Hx as [Hx|[<-|Hx]].
    + apply H4. apply in_or_app. now left.
    + exact Hcl.
    + apply H4. apply in_or_app. right. now right.
  - intros x Hx. apply in_app_or in Hx. destruct Hx as [Hx|[<-|Hx]].
    + apply H5. apply in_or_app. now left.
    + exact Hdel.
    + apply H5. apply in_or_app. right. now right.
Qed.

(** Appending a record that the [_id] and [ack] indexes accept. *)
Lemma wf_coll_snoc bound c d :
  wf_coll bound c ->
  (_id d < bound)%nat ->
  (forall x, In x c -> _id x <> _id d) ->
  (forall t x, ack d = Some t -> In x c -> ack x <> Some t) ->
  (ack d = None <-> tries d = 0%nat) ->
  (deleted d <> None -> ack d <> None) ->
  wf_coll bound (c ++ [d]).
Proof.
  intros [H1 H2 H3 H4 H5] Hb Hid Hack Hcl Hdel. split.
  - rewrite map_app. simpl. apply NoDup_app. split; [exact H1|]. split.
    + intros i Hi Hi'. apply list_elem_of_singleton in Hi'. subst i.
      apply list_elem_of_In, in_map_iff in Hi. destruct Hi as (x & Hxi & Hx).
      now apply (Hid x).
    + apply NoDup_singleton.
  - intros x Hx. apply in_app_or in Hx. destruct Hx as [Hx|[<-|[]]]; auto.
  - rewrite omap_app. simpl. destruct (ack d) as [t|] eqn:Ht; simpl.
    + apply NoDup_app. split; [exact H3|]. split; [|apply NoDup_singleton].
      intros y Hy Hy'. apply list_elem_of_singleton in Hy'. subst y.
      apply list_elem_of_omap in Hy. destruct Hy as (x & Hx & Hxt).
      apply (Hack t x eq_refl); [now apply list_elem_of_In | exact Hxt].
    + now rewrite app_nil_r.
  - intros x Hx. apply in_app_or in Hx. destruct Hx as [Hx|[<-|[]]]; auto.
  - intros x Hx. apply in_app_or in Hx. destruct Hx as [Hx|[<-|[]]]; auto.
Qed.

Lemma wf_coll_filter bound p c : wf_coll bound c -> wf_coll bound (List.filter p c).
Proof.
  intros [H1 H2 H3 H4 H5]. split.
  - clear - H1. induction c as [|x c IH]; simpl; [constructor|].
    simpl in H1. apply NoDup_cons in H1. destruct H1 as [Hx Hc].
    destruct (p x); [|now apply IH]. simpl. apply NoDup_cons. split; [|now apply IH].
    intros Hin. apply Hx. apply list_elem_of_In, in_map_iff in Hin.
    destruct Hin as (y & Hy & Hin). apply filter_In in Hin.
    apply list_elem_of_In, in_map_iff. exists y. tauto.
  - intros d Hd. apply filter_In in Hd. now apply H2.
  - clear - H3. induction c as [|x c IH]; simpl; [constructor|].
    rewrite omap_ack_cons in H3.
    assert (NoDup (omap ack c)) as Hc.
    { destruct (ack x); [now apply NoDup_cons in H3|exact H3]. }
    destruct (p x); [|now apply IH]. rewrite omap_ack_cons.
    destruct (ack x) as [t|]; [|now apply IH].
    apply NoDup_cons in H3. destruct H3 as [Ht _].
    apply NoDup_cons. split; [|now apply IH].
    intros Hin. apply Ht. apply list_elem_of_omap in Hin.
    destruct Hin as (y & Hy & Hyt). apply list_elem_of_omap. exists y.
    split; [|exact Hyt]. apply list_elem_of_In. apply list_elem_of_In in Hy.
    apply filter_In in Hy. tauto.
  - intros d Hd. apply filter_In in Hd. now apply H4.
  - intros d Hd. apply filter_In in Hd. now apply H5.
Qed.

(** Appending a batch that [insertMany] numbered from [bound]. *)
Lemma wf_coll_fresh bound c v ps :
  wf_coll bound c ->
  wf_coll (bound + length ps) (c ++ imap (fresh_doc bound v) ps).
Proof.
  revert bound c. induction ps as [|p ps IH]; intros bound c Hc.
  - simpl. rewrite app_nil_r, Nat.add_0_r. exact Hc.
  - simpl. replace (c ++ fresh_doc bound v 0 p :: imap (fresh_doc bound v ∘ S) ps)
      with ((c ++ [fresh_doc bound v 0 p]) ++ imap (fresh_doc (S bound) v) ps).
    + replace (bound + S (length ps))%nat with (S bound + length ps)%nat by lia.
      apply IH. apply wf_coll_snoc.
      * apply wf_coll_mono with bound; [lia | exact Hc].
      * unfold fresh_doc. simpl. lia.
      * intros x Hx. pose proof (wf_bound _ _ Hc x Hx). unfold fresh_doc. simpl. lia.
      * intros t x Ht. discriminate.
      * now split.
      * intros H. now destruct H.
    + rewrite <- app_assoc. simpl. do 2 f_equal.
      apply imap_ext. intros k x _. unfold fresh_doc. simpl. f_equal. lia.
Qed.

End WfColl.

(** ** Acknowledge *)

Lemma ack_Ok q now tok db i db' :
  Queue.ack q now tok db = (Ok i, db') ->
  exists pre d post,
    coll db (_col q) = pre ++ d :: post /\ _id d = i
    /\ owned tok now d = true /\ (forall x, In x pre -> owned tok now x = false)
    /\ db' = set_coll (_col q) (pre ++ set_deleted_to now d :: post) db.
Proof.
  unfold Queue.ack.
  destruct (Collection.findOneAndUpdate _ _ _ _) as [[[m|] c']|e] eqn:F;
    intros H; inversion H; subst; clear H.
  destruct (findOneAndUpdate_found _ _ _ _ _ _ F)
    as (pre & d & post & Hc & Hd & -> & -> & _ & _ & _ & Hfirst).
  exists pre, d, post. rewrite apply_set_deleted.
  repeat split; try assumption. now apply Hfirst.
Qed.

Lemma ack_Err q now tok db e db' :
  Queue.ack q now tok db = (Err e, db') ->
  e = UnknownAck /\ db' = db
  /\ forall x, In x (coll db (_col q)) -> owned tok now x = false.
Proof.
  unfold Queue.ack.
  destruct (Collection.findOneAndUpdate _ _ _ _) as [[[m|] c']|e'] eqn:F;
    intros H; inversion H; subst; clear H.
  - destruct (findOneAndUpdate_none _ _ _ _ _ F) as [_ Hno]. now repeat split.
  - destruct (findOneAndUpdate_err _ _ _ _ _ F) as (_ & d & t & x & _ & Hset & _).
    discriminate Hset.
Qed.

Lemma ack_unknown q now tok db :
  (forall x, In x (coll db (_col q)) -> owned tok now x = false) ->
  Queue.ack q now tok db = (Err UnknownAck, db).
Proof. intros H. unfold Queue.ack. now rewrite findOneAndUpdate_no_match. Qed.

Lemma ping_unknown q now tok visibility db :
  (forall x, In x (coll db (_col q)) -> owned tok now x = false) ->
  Queue.ping q now tok visibility db = (Err UnknownAck, db).
Proof. intros H. unfold Queue.ping. now rewrite findOneAndUpdate_no_match. Qed.

(** ** Every operation keeps the store well formed *)

Section Preservation.

Lemma wf_set_coll name c db :
  wf db -> wf_coll (next_oid db) c -> wf (set_coll name c db).
Proof.
  intros Hdb Hc name'. simpl. destruct (String.eqb_spec name name') as [<-|Hne].
  - now rewrite coll_set_coll_eq.
  - rewrite coll_set_coll_ne by exact Hne. apply Hdb.
Qed.

Lemma wf_empty : wf empty_db.
Proof. intros name. apply wf_coll_nil. Qed.

Lemma wf_add q now payload delay db : wf db -> wf (snd (Queue.add q now payload delay db)).
Proof.
  intros Hdb name. rewrite add_unfold. cbv zeta.
  destruct (_arr payload) as [|p ps]; [apply Hdb|]. set (l := p :: ps).
  cbn [snd next_oid].
  destruct (String.eqb_spec (_col q) name) as [<-|Hne].
  - unfold coll at 1. cbn [colls]. rewrite lookup_insert_eq.
    apply wf_coll_fresh, Hdb.
  - unfold coll at 1. cbn [colls]. rewrite lookup_insert_ne by exact Hne.
    apply wf_coll_mono with (next_oid db); [lia | apply Hdb].
Qed.

Lemma wf_ping q now tok visibility db :
  wf db -> wf (snd (Queue.ping q now tok visibility db)).
Proof.
  intros Hdb. destruct (Queue.ping q now tok visibility db) as [[i|e] db'] eqn:P.
  - destruct (ping_Ok _ _ _ _ _ _ _ P) as (pre & d & post & Hc & _ & Ho & _ & ->).
    apply wf_set_coll; [exact Hdb|]. pose proof (Hdb (_col q)) as Hq. rewrite Hc in Hq.
    assert (In d (pre ++ d :: post)) as Hin by (apply in_or_app; right; now left).
    apply wf_coll_replace with d; try reflexivity; try exact Hq.
    + now left.
    + exact (wf_claimed _ _ Hq d Hin).
    + exact (wf_deleted _ _ Hq d Hin).
  - now destruct (ping_Err _ _ _ _ _ _ _ P) as (_ & -> & _).
Qed.

Lemma wf_ack q now tok db : wf db -> wf (snd (Queue.ack q now tok db)).
Proof.
  intros Hdb. destruct (Queue.ack q now tok db) as [[i|e] db'] eqn:P.
  - destruct (ack_Ok _ _ _ _ _ _ P) as (pre & d & post & Hc & _ & Ho & _ & ->).
    apply wf_set_coll; [exact Hdb|]. pose proof (Hdb (_col q)) as Hq. rewrite Hc in Hq.
    assert (In d (pre ++ d :: post)) as Hin by (apply in_or_app; right; now left).
    apply owned_true in Ho. destruct Ho as (Ha & _ & _).
    apply wf_coll_replace with d; try reflexivity; try exact Hq.
    + now left.
    + exact (wf_claimed _ _ Hq d Hin).
    + simpl. intros _. congruence.
  - now destruct (ack_Err _ _ _ _ _ _ P) as (_ & -> & _).
Qed.

Lemma wf_purge name now db : wf db -> wf (ttl_purge name now db).
Proof.
  intros Hdb. apply wf_set_coll; [exact Hdb|]. apply wf_coll_filter, Hdb.
Qed.

(** The record a claim writes fits where the claimed one stood. *)
Lemma wf_coll_claimed bound pre d post now tok v :
  wf_coll bound (pre ++ d :: post) ->
  (forall x, In x (pre ++ post) -> ack x <> Some tok) ->
  claimable now d = true ->
  wf_coll bound (pre ++ claimed now tok v d :: post).
Proof.
  intros Hq Hfresh Hd. apply claimable_true in Hd. destruct Hd as [Hdel _].
  apply wf_coll_replace with d; try reflexivity; try exact Hq.
  - right. exists tok. now split.
  - simpl. split; discriminate.
  - simpl. intros H. now destruct H.
Qed.

Lemma wf_get fuel : forall q visibility env db r db',
  wf db -> Queue.get fuel q visibility env db = Some (r, db') -> wf db'.
Proof.
  induction fuel as [|fuel IH]; intros q visibility env db r db' Hdb H; [discriminate|].
  simpl in H.
  destruct (Queue.claim _ _ _ _ _) as [[[msg|] c']|e] eqn:C;
    [|inversion H; now subst ..].
  pose proof (wf_ids _ _ (Hdb (_col q))) as Hnd.
  destruct (Queue.poisoned q msg) eqn:P.
  - destruct (Queue._moveToDLQ _ _ _ _) as [[[]|e] db2] eqn:M.
    + refine (IH _ _ _ db2 r db' _ H). clear H IH.
      apply poisoned_true in P. destruct P as [[dq Hdq] _].
      destruct (poison_round _ _ _ _ _ _ _ _ _ Hnd Hdq C M)
        as (pre & d & post & Hc & Hd & _ & Hm & Hne & Hc2 & Hcd & Hother & Hoid
            & Hfresh & Hdlq).
      pose proof (Hdb (_col q)) as Hq. rewrite Hc in Hq.
      assert (In d (pre ++ d :: post)) as Hin by (apply in_or_app; right; now left).
      intros name. rewrite Hoid.
      destruct (String.eqb_spec name (_col q)) as [->|Hn1];
        [|destruct (String.eqb_spec name (_col dq)) as [->|Hn2]].
      * rewrite Hc2. apply wf_coll_replace with (claimed (_now env 0%nat) (_ack env 0%nat)
            (match visibility with Some s => s | None => _visibility q end) d).
        -- now apply wf_coll_claimed.
        -- now rewrite Hm.
        -- left. now rewrite Hm.
        -- rewrite Hm. simpl. split; discriminate.
        -- rewrite Hm. simpl. intros _. discriminate.
      * rewrite Hcd. apply wf_coll_snoc.
        -- apply Hdb.
        -- rewrite Hm. simpl. exact (wf_bound _ _ Hq d Hin).
        -- intros x Hx. rewrite Hm. simpl. now apply Hdlq.
        -- intros t x Ht Hx. rewrite Hm in Ht. simpl in Ht. inversion Ht; subst t.
           now apply Hdlq.
        -- rewrite Hm. simpl. split; discriminate.
        -- rewrite Hm. simpl. apply claimable_true in Hd. destruct Hd as [Hdel _].
           intros Hn. now destruct Hn.
      * rewrite Hother by assumption. apply Hdb.
    + inversion H; subst. apply moveToDLQ_Err in M. subst db'.
      destruct (claim_found _ _ _ _ _ _ _ Hnd C)
        as (pre & d & post & Hc & Hd & _ & -> & -> & Hfresh).
      apply wf_set_coll; [exact Hdb|]. pose proof (Hdb (_col q)) as Hq. rewrite Hc in Hq.
      now apply wf_coll_claimed.
  - inversion H; subst.
    destruct (claim_found _ _ _ _ _ _ _ Hnd C)
      as (pre & d & post & Hc & Hd & _ & -> & -> & Hfresh).
    apply wf_set_coll; [exact Hdb|]. pose proof (Hdb (_col q)) as Hq. rewrite Hc in Hq.
    now apply wf_coll_claimed.
Qed.

Lemma wf_exec op db db' : wf db -> exec op db = Some db' -> wf db'.
Proof.
  intros Hdb. destruct op as [q now p d|fuel q v env|q now tok v|q now tok|name now];
    simpl; intros H.
  - inversion H. now apply wf_add.
  - destruct (Queue.get fuel q v env db) as [[r db'']|] eqn:G; [|discriminate].
    inversion H; subst. exact (wf_get _ _ _ _ _ _ _ Hdb G).
  - inversion H. now apply wf_ping.
  - inversion H. now apply wf_ack.
  - inversion H. now apply wf_purge.
Qed.

Lemma reachable_wf db : reachable db -> wf db.
Proof.
  induction 1 as [|db op db' _ IH Hop]; [exact wf_empty|].
  exact (wf_exec _ _ _ IH Hop).
Qed.

End Preservation.

Lemma run_reachable ops : forall db db',
  reachable db -> run ops db = Some db' -> reachable db'.
Proof.
  induction ops as [|op ops IH]; simpl; intros db db' Hdb H.
  - inversion H. now subst.
  - destruct (exec op db) as [db1|] eqn:E; [|discriminate].
    apply (IH db1); [|exact H]. exact (reach_step _ _ _ Hdb E).
Qed.

Lemma acked_db_run : run acked_ops empty_db = Some acked_db.
Proof. vm_compute. reflexivity. Qed.

(** The unique indexes hold in every reachable store: within a collection no
    two records share an [_id] or an [ack] token, and every [_id] is below the
    driver's counter. *)
Theorem reachable_store_is_well_formed db :
  reachable db ->
  forall name,
    NoDup (map _id (coll db name))
    /\ NoDup (omap ack (coll db name))
    /\ forall d, In d (coll db name) -> (_id d < next_oid db)%nat.
Proof.
  intros Hr name. pose proof (reachable_wf db Hr name) as Hwf.
  split; [exact (wf_ids _ _ Hwf)|]. split; [exact (wf_acks _ _ Hwf) | exact (wf_bound _ _ Hwf)].
Qed.

Lemma reachable_store_witness :
  NoDup (map _id (coll acked_db "jobs"))
  /\ NoDup (omap ack (coll acked_db "jobs"))
  /\ forall d, In d (coll acked_db "jobs") -> (_id d < next_oid acked_db)%nat.
Proof.
  exact (reachable_store_is_well_formed acked_db
           (run_reachable acked_ops empty_db acked_db reach_empty acked_db_run) "jobs").
Defined.

(** ** The life of the [ack] field *)

(** C7, as amended: in every store the operations can reach, a record has no
    [ack] exactly as long as it was never claimed ([tries = 0]); each claim
    writes a token and nothing removes it, so that a record that has been
    acknowledged or dead-lettered ([deleted] set) still carries one. *)
Theorem ack_field_is_written_by_claims_and_kept db :
  reachable db ->
  forall name d, In d (coll db name) ->
    (ack d = None <-> tries d = 0%nat)
    /\ (deleted d <> None -> ack d <> None).
Proof.
  intros Hr name d Hd. pose proof (reachable_wf db Hr name) as Hwf. split.
  - exact (wf_claimed _ _ Hwf d Hd).
  - exact (wf_deleted _ _ Hwf d Hd).
Qed.

Lemma ack_field_witness :
  (ack acked_doc = None <-> tries acked_doc = 0%nat)
  /\ (deleted acked_doc <> None -> ack acked_doc <> None).
Proof.
  apply (ack_field_is_written_by_claims_and_kept acked_db
           (run_reachable acked_ops empty_db acked_db reach_empty acked_db_run)
           "jobs" acked_doc).
  unfold acked_db. rewrite coll_set_coll_eq. now left.
Defined.

(** C7, as stated, fails: the acknowledged record keeps its token. *)
Lemma acknowledged_record_keeps_ack :
  exists db1 db2 db3,
    Queue.add plain_queue 1000 (JStr "job1") None empty_db = (Ok (Id 0), db1)
    /\ Queue.get 1 plain_queue None (at_time 1000) db1
       = Some (Ok (Some {| Msg.id := 0; Msg.ack := Some "a";
                           Msg.payload := JStr "job1"; Msg.tries := 1 |}), db2)
    /\ Queue.ack plain_queue 1500 "a" db2 = (Ok 0%nat, db3)
    /\ coll db3 "jobs" = [mkDoc 0 (JStr "job1") 31000 1 (Some "a") (Some 1500)].
Proof.
  do 3 eexists. split; [vm_compute; reflexivity|].
  split; [vm_compute; reflexivity|]. split; vm_compute; reflexivity.
Qed.

(** ** Finality of an acknowledgement *)

Lemma owned_set_deleted tok now t d : owned tok now (set_deleted_to t d) = false.
Proof. unfold owned. simpl. apply andb_false_r. Qed.

Lemma in_flight_set_deleted now t d : in_flight now (set_deleted_to t d) = false.
Proof. unfold in_flight. simpl. apply andb_false_r. Qed.

Lemma owned_without_token tok now d : ack d <> Some tok -> owned tok now d = false.
Proof.
  intros H. apply has_ack_false in H. unfold owned. now rewrite H.
Qed.

Lemma filter_others pre (d : Doc) post :
  NoDup (map _id (pre ++ d :: post)) ->
  List.filter (fun x => negb (has_id (_id d) x)) (pre ++ d :: post) = pre ++ post.
Proof.
  intros Hnd. pose proof (NoDup_ids_others _ _ _ Hnd) as Hne.
  assert (forall l, (forall x, In x l -> _id x <> _id d) ->
            List.filter (fun x => negb (has_id (_id d) x)) l = l) as Hkeep.
  { induction l as [|x l IH]; simpl; intros Hl; [reflexivity|].
    assert (has_id (_id d) x = false) as -> by (apply has_id_false, Hl; now left).
    simpl. f_equal. apply IH. intros y Hy. apply Hl. now right. }
  rewrite List.filter_app. simpl.
  assert (has_id (_id d) d = true) as -> by now apply has_id_true.
  simpl. rewrite !Hkeep; [reflexivity| |].
  - intros x Hx. apply Hne. apply in_or_app. now right.
  - intros x Hx. apply Hne. apply in_or_app. now left.
Qed.

Lemma countDocuments_app p l l' :
  Collection.countDocuments p (l ++ l')
  = (Collection.countDocuments p l + Collection.countDocuments p l')%nat.
Proof. unfold Collection.countDocuments. now rewrite List.filter_app, length_app. Qed.

(** C3: once [ack(token)] has succeeded, the same token is refused by [ack]
    and by [ping] at any later time with the unknown-ack error; the record,
    now with [deleted] set, counts neither in [size] nor in [inFlight], and
    still counts in [total] and in [done]. *)
Theorem ack_is_final q now tok db i db' :
  NoDup (map _id (coll db (_col q))) ->
  NoDup (omap ack (coll db (_col q))) ->
  Queue.ack q now tok db = (Ok i, db') ->
  (forall now', Queue.ack q now' tok db' = (Err UnknownAck, db'))
  /\ (forall now' visibility,
        Queue.ping q now' tok visibility db' = (Err UnknownAck, db'))
  /\ (exists d, In d (coll db' (_col q)) /\ _id d = i
                /\ ack d = Some tok /\ deleted d = Some now)
  /\ let others := List.filter (fun d => negb (has_id i d)) (coll db' (_col q)) in
     (forall now', Queue.size q now' db' = Collection.countDocuments (claimable now') others)
     /\ (forall now',
           Queue.inFlight q now' db' = Collection.countDocuments (in_flight now') others)
     /\ Queue.total q db' = S (Collection.estimatedDocumentCount others)
     /\ Queue.done q db' = S (Collection.countDocuments is_deleted others)
     /\ Queue.total q db' = Queue.total q db
     /\ Queue.done q db' = S (Queue.done q db).
Proof.
  intros Hids Hacks A.
  destruct (ack_Ok _ _ _ _ _ _ A) as (pre & d & post & Hc & Hi & Ho & _ & ->).
  apply owned_true in Ho. destruct Ho as (Ha & Hv & Hdel).
  assert (coll (set_coll (_col q) (pre ++ set_deleted_to now d :: post) db) (_col q)
          = pre ++ set_deleted_to now d :: post) as Hc' by apply coll_set_coll_eq.
  rewrite Hc in Hids, Hacks.
  assert (forall now' x, In x (pre ++ set_deleted_to now d :: post) ->
            owned tok now' x = false) as Hgone.
  { intros now' x Hx. apply in_app_or in Hx. destruct Hx as [Hx|[<-|Hx]].
    - apply owned_without_token, (wf_acks_split _ _ _ _ Hacks Ha).
      apply in_or_app. now left.
    - apply owned_set_deleted.
    - apply owned_without_token, (wf_acks_split _ _ _ _ Hacks Ha).
      apply in_or_app. now right. }
  split; [|split; [|split]].
  - intros now'. apply ack_unknown. rewrite Hc'. apply Hgone.
  - intros now' visibility. apply ping_unknown. rewrite Hc'. apply Hgone.
  - exists (set_deleted_to now d). rewrite Hc'.
    split; [apply in_or_app; right; now left | now repeat split].
  - cbv zeta. unfold Queue.size, Queue.inFlight, Queue.total, Queue.done.
    rewrite Hc', Hc. subst i.
    change (_id d) with (_id (set_deleted_to now d)).
    rewrite filter_others by (rewrite <- (poison_round_ids pre d post now d eq_refl) in Hids;
                              exact Hids).
    unfold Collection.estimatedDocumentCount.
    assert (is_deleted d = false) as Hnot by (unfold is_deleted; now rewrite Hdel).
    repeat split; try intros now';
      rewrite ?countDocuments_split, ?countDocuments_app, ?length_app,
        ?in_flight_set_deleted, ?claimable_set_deleted, ?Hnot; simpl; lia.
Qed.

Lemma ack_is_final_witness :
  (forall now', Queue.ack plain_queue now' "a" acked_db = (Err UnknownAck, acked_db))
  /\ (forall now' visibility,
        Queue.ping plain_queue now' "a" visibility acked_db = (Err UnknownAck, acked_db)).
Proof.
  destruct (ack_is_final plain_queue 1500 "a" claimed_db 0%nat acked_db)
    as (H1 & H2 & _).
  - apply NoDup_ListNoDup. vm_compute. repeat constructor. intros [].
  - apply NoDup_ListNoDup. vm_compute. repeat constructor. intros [].
  - vm_compute. reflexivity.
  - split; [exact H1 | exact H2].
Defined.

(** ** First in, first out *)

Lemma least_head d l :
  (forall x, In x l -> (_id d <= _id x)%nat) -> Collection.least (d :: l) = Some d.
Proof.
  intros H. simpl. destruct (Collection.least l) as [m|] eqn:E; [|reflexivity].
  destruct (least_split _ _ E) as (pre & post & -> & _).
  assert (_id d <= _id m)%nat as Hle by (apply H, in_or_app; right; now left).
  apply Nat.leb_le in Hle. now rewrite Hle.
Qed.

Lemma filter_none (p : Doc -> bool) l :
  (forall x, In x l -> p x = false) -> List.filter p l = [].
Proof.
  induction l as [|x l IH]; simpl; intros H; [reflexivity|].
  rewrite (H x (or_introl eq_refl)). apply IH. intros y Hy. apply H. now right.
Qed.

Lemma find_skip (p : Doc -> bool) l l' :
  (forall x, In x l -> p x = false) -> List.find p (l ++ l') = List.find p l'.
Proof.
  induction l as [|x l IH]; simpl; intros H; [reflexivity|].
  rewrite (H x (or_introl eq_refl)). apply IH. intros y Hy. apply H. now right.
Qed.

Lemma find_none_all (p : Doc -> bool) l :
  (forall x, In x l -> p x = false) -> List.find p l = None.
Proof.
  induction l as [|x l IH]; simpl; intros H; [reflexivity|].
  rewrite (H x (or_introl eq_refl)). apply IH. intros y Hy. apply H. now right.
Qed.

(** A claim on a collection whose earliest claimable record is known. *)
Lemma claim_at q v now tok db pre d post :
  coll db (_col q) = pre ++ d :: post ->
  (forall x, In x pre -> claimable now x = false) ->
  claimable now d = true ->
  (forall x, In x post -> claimable now x = true -> (_id d <= _id x)%nat) ->
  (forall x, In x (pre ++ post) -> ack x <> Some tok) ->
  Queue.claim q v now tok db
  = Ok (Some (claimed now tok v d), pre ++ claimed now tok v d :: post).
Proof.
  intros Hc Hpre Hd Hpost Hfree.
  unfold Queue.claim, Collection.findOneAndUpdate, Collection.pick. rewrite Hc.
  rewrite List.filter_app, (filter_none _ _ Hpre). simpl. rewrite Hd.
  rewrite least_head.
  - assert (Collection.ack_taken (Queue.claim_update now tok v) d (pre ++ d :: post) = false)
      as ->.
    { unfold Collection.ack_taken. simpl.
      destruct (existsb _ _) eqn:E; [|reflexivity].
      apply existsb_exists in E. destruct E as (x & Hx & Hb).
      apply andb_true_iff in Hb. destruct Hb as [Ha Hi].
      apply has_ack_true in Ha. apply negb_true_iff, has_id_false in Hi.
      apply in_app_or in Hx. destruct Hx as [Hx|[<-|Hx]].
      - destruct (Hfree x); [apply in_or_app; now left | exact Ha].
      - now destruct Hi.
      - destruct (Hfree x); [apply in_or_app; now right | exact Ha]. }
    rewrite apply_claim_update. do 3 f_equal.
    rewrite update_first_split.
    + now rewrite apply_claim_update.
    + rewrite Hd. now apply has_id_true.
    + intros x Hx. now rewrite (Hpre x Hx).
  - intros x Hx. apply filter_In in Hx. destruct Hx as [Hx Hcl]. now apply Hpost.
Qed.

Lemma update_first_ext p f g c :
  (forall x, f x = g x) -> Collection.update_first p f c = Collection.update_first p g c.
Proof.
  intros H. induction c as [|x c IH]; simpl; [reflexivity|].
  destruct (p x); [now rewrite H | now rewrite IH].
Qed.

(** An acknowledgement of a token that at most one known record holds. *)
Lemma ack_at q a tok db pre d post :
  coll db (_col q) = pre ++ d :: post ->
  (forall x, In x (pre ++ post) -> ack x <> Some tok) ->
  Queue.ack q a tok db
  = if owned tok a d
    then (Ok (_id d), set_coll (_col q) (pre ++ set_deleted_to a d :: post) db)
    else (Err UnknownAck, db).
Proof.
  intros Hc Hfree.
  assert (forall x, In x pre -> owned tok a x = false) as Hpre.
  { intros x Hx. apply owned_without_token, Hfree, in_or_app. now left. }
  assert (forall x, In x post -> owned tok a x = false) as Hpost.
  { intros x Hx. apply owned_without_token, Hfree, in_or_app. now right. }
  unfold Queue.ack, Collection.findOneAndUpdate, Collection.pick. rewrite Hc.
  rewrite (find_skip _ _ _ Hpre). cbn [List.find].
  destruct (owned tok a d) eqn:O.
  - unfold Collection.ack_taken. cbn [set_ack]. rewrite apply_set_deleted. do 2 f_equal.
    rewrite (update_first_ext _ _ (set_deleted_to a)) by apply apply_set_deleted.
    apply update_first_split.
    + rewrite O. now apply has_id_true.
    + intros x Hx. now rewrite (Hpre x Hx).
  - now rewrite (find_none_all _ _ Hpost).
Qed.

Lemma in_imap_fresh oid v ps x :
  In x (imap (fresh_doc oid v) ps) ->
  (oid <= _id x)%nat /\ visible x = v /\ ack x = None /\ deleted x = None.
Proof.
  intros Hx. apply list_elem_of_In, list_elem_of_lookup in Hx. destruct Hx as [k Hk].
  rewrite list_lookup_imap in Hk. destruct (ps !! k) as [p|]; [|discriminate].
  inversion Hk. unfold fresh_doc. simpl. repeat split. lia.
Qed.

Lemma imap_fresh_succ oid v ps :
  imap (fresh_doc oid v ∘ S) ps = imap (fresh_doc (S oid) v) ps.
Proof.
  apply imap_ext. intros k x _. unfold fresh_doc. simpl. f_equal. lia.
Qed.

Section Fifo.

Variables (q : Queue) (visibility : option Z) (fuel : nat).
Variable v0 : Time.

Let v : Z := match visibility with Some s => s | None => _visibility q end.

Hypothesis Hretry : _deadQueue q = None \/ 1 <= _maxRetries q.

Lemma consume_fifo items : forall turns done oid db,
  length turns = length items ->
  coll db (_col q) = done ++ imap (fresh_doc oid v0) items ->
  (forall x, In x done -> settled turns x) ->
  (forall t, In t turns -> v0 <= _now (turn_env t) 0%nat) ->
  undisturbed v turns = true ->
  NoDup (map (fun t => _ack (turn_env t) 0%nat) turns) ->
  consume (S fuel) q visibility turns db
  = imap (fun k p => Some {| Msg.id := (oid + k)%nat;
                             Msg.ack := option_map (fun t => _ack (turn_env t) 0%nat)
                                          (turns !! k);
                             Msg.payload := p; Msg.tries := 1 |}) items.
Proof.
  induction items as [|p items IH]; intros turns done oid db Hlen Hc Hdone Hvis Hund Hnd.
  - destruct turns; [reflexivity | discriminate].
  - destruct turns as [|t turns]; [discriminate|]. simpl in Hlen.
    cbn [imap] in Hc. rewrite imap_fresh_succ in Hc.
    cbn [undisturbed] in Hund. apply andb_true_iff in Hund. destruct Hund as [Hkeeps Hund].
    set (d := fresh_doc oid v0 0 p) in Hc.
    set (now := _now (turn_env t) 0%nat) in *. set (tok := _ack (turn_env t) 0%nat).
    pose proof (Hvis t (or_introl eq_refl)) as Hv0.
    assert (Queue.claim q v now tok db
            = Ok (Some (claimed now tok v d),
                  done ++ claimed now tok v d :: imap (fresh_doc (S oid) v0) items)) as C.
    { apply claim_at; [exact Hc| | | |].
      - intros x Hx. apply (Hdone x Hx t). now left.
      - apply claimable_true. split; [reflexivity | exact Hv0].
      - intros x Hx _. apply in_imap_fresh in Hx. unfold d, fresh_doc. simpl. lia.
      - intros x Hx. apply in_app_or in Hx. destruct Hx as [Hx|Hx].
        + apply (Hdone x Hx t). now left.
        + apply in_imap_fresh in Hx. destruct Hx as (_ & _ & -> & _). discriminate. }
    assert (Queue.poisoned q (claimed now tok v d) = false) as P.
    { apply poisoned_false. destruct Hretry as [H|H]; [now left | right; simpl; lia]. }
    set (m0 := {| Msg.id := oid; Msg.ack := Some tok; Msg.payload := p; Msg.tries := 1 |}).
    assert (Queue.to_msg (claimed now tok v d) = m0) as Hm0.
    { unfold Queue.to_msg, m0, d, fresh_doc. simpl. now rewrite Nat.add_0_r. }
    pose proof (get_round_returns q visibility (turn_env t) db fuel _ _ C P) as G.
    rewrite Hm0 in G.
    set (db1 := set_coll (_col q) _ db) in G.
    cbn [consume]. rewrite G. cbn [imap].
    match goal with |- _ :: _ = ?b :: _ => assert (b = Some m0) as -> end.
    { unfold m0. simpl. now rewrite Nat.add_0_r. }
    f_equal.
    + (* the store after the turn, whether or not it acknowledged *)
      assert (exists x, coll (after_turn q t m0 db1) (_col q)
                        = (done ++ [x]) ++ imap (fresh_doc (S oid) v0) items
                        /\ settled turns x) as (x & Hc2 & Hx).
      { assert (forall t', In t' turns -> tok <> _ack (turn_env t') 0%nat) as Htok.
        { intros t' Ht' E.
          apply NoDup_cons in Hnd. destruct Hnd as [Hnot _]. apply Hnot.
          fold tok. rewrite E. apply list_elem_of_In.
          now apply (in_map (fun t => _ack (turn_env t) 0%nat)). }
        assert (forallb (fun t' => _now (turn_env t') 0%nat <? now + v * 1000) turns = true ->
                settled turns (claimed now tok v d)) as Hs1.
        { intros Hall t' Ht'. split.
          - rewrite forallb_forall in Hall. specialize (Hall t' Ht').
            apply Z.ltb_lt in Hall. apply claimable_false. right. simpl. lia.
          - intros E. simpl in E. inversion E as [E']. now apply (Htok t' Ht'). }
        assert (coll db1 (_col q)
                = done ++ claimed now tok v d :: imap (fresh_doc (S oid) v0) items) as Hc1
          by apply coll_set_coll_eq.
        unfold keeps in Hkeeps. fold now in Hkeeps.
        unfold after_turn. destruct (turn_ack t) as [a|]; cbn [m0 Msg.ack].
        - rewrite (ack_at q a tok db1 _ _ _ Hc1).
          + destruct (owned tok a (claimed now tok v d)) eqn:O.
            * exists (set_deleted_to a (claimed now tok v d)). cbn [snd].
              rewrite coll_set_coll_eq, <- app_assoc. split; [reflexivity|].
              intros t' Ht'. split; [apply claimable_set_deleted|].
              intros E. simpl in E. inversion E as [E']. now apply (Htok t' Ht').
            * exists (claimed now tok v d). cbn [snd].
              rewrite Hc1, <- app_assoc. split; [reflexivity|]. apply Hs1.
              assert ((a <? now + v * 1000) = false) as Hexp.
              { destruct (Z.ltb_spec a (now + v * 1000)) as [Hlt|]; [|reflexivity].
                assert (owned tok a (claimed now tok v d) = true) as O'
                  by (apply owned_true; simpl; repeat split; lia).
                congruence. }
              now rewrite Hexp in Hkeeps.
          + intros y Hy. apply in_app_or in Hy. destruct Hy as [Hy|Hy].
            * apply (Hdone y Hy t). now left.
            * apply in_imap_fresh in Hy. destruct Hy as (_ & _ & -> & _). discriminate.
        - exists (claimed now tok v d). rewrite Hc1, <- app_assoc.
          split; [reflexivity | now apply Hs1]. }
      rewrite (IH turns (done ++ [x]) (S oid) _ (eq_add_S _ _ Hlen) Hc2).
      * apply imap_ext. intros k y _. cbn. do 2 f_equal. lia.
      * intros y Hy. apply in_app_or in Hy. destruct Hy as [Hy|[<-|[]]]; [|exact Hx].
        intros t' Ht'. apply (Hdone y Hy). now right.
      * intros t' Ht'. apply Hvis. now right.
      * exact Hund.
      * now apply NoDup_cons in Hnd.
Qed.

End Fifo.

Lemma ids_of_imap (f : nat -> JSON -> option Msg.t) items : forall oid,
  (forall k p, option_map Msg.id (f k p) = Some (oid + k)%nat) ->
  map (option_map Msg.id) (imap f items) = map Some (seq oid (length items)).
Proof.
  revert f. induction items as [|p items IH]; intros f oid Hf; simpl; [reflexivity|].
  rewrite Hf, Nat.add_0_r. f_equal. apply IH.
  intros k p'. simpl. rewrite Hf. f_equal. lia.
Qed.

Lemma payloads_of_imap (f : nat -> JSON -> option Msg.t) items :
  (forall k p, option_map Msg.payload (f k p) = Some p) ->
  map (option_map Msg.payload) (imap f items) = map Some items.
Proof.
  revert f. induction items as [|p items IH]; intros f Hf; simpl; [reflexivity|].
  rewrite Hf. f_equal. apply IH. intros k p'. simpl. apply Hf.
Qed.

(** C2, as amended: [get] claims, among the records with [deleted] absent and
    [visible <= now], the one with the smallest [_id].  Hence, on a queue
    whose dead-letter check does not fire at a first claim (no dead-letter
    queue, or [maxRetries >= 1]), N records inserted together into an empty
    queue come back from N sequential [get]s in the order of their ids, which
    is the order of insertion, when each turn either acknowledges its record
    while the claim is outstanding or is followed only by [get]s made before
    the claim runs out.  The turns may be any time apart otherwise. *)
Theorem sequential_gets_are_fifo q t0 items delay visibility fuel turns db :
  let s := match delay with Some s => s | None => _delay q end in
  let v := match visibility with Some s => s | None => _visibility q end in
  coll db (_col q) = [] ->
  _deadQueue q = None \/ 1 <= _maxRetries q ->
  length turns = length items ->
  (forall t, In t turns -> t0 + s * 1000 <= _now (turn_env t) 0%nat) ->
  undisturbed v turns = true ->
  NoDup (map (fun t => _ack (turn_env t) 0%nat) turns) ->
  let got := consume (S fuel) q visibility turns
               (snd (Queue.add q t0 (JArr items) delay db)) in
  got = imap (fun k p => Some {| Msg.id := (next_oid db + k)%nat;
                                 Msg.ack := option_map (fun t => _ack (turn_env t) 0%nat)
                                              (turns !! k);
                                 Msg.payload := p; Msg.tries := 1 |}) items
  /\ map (option_map Msg.id) got = map Some (seq (next_oid db) (length items))
  /\ map (option_map Msg.payload) got = map Some items
  /\ (forall q' v' now tok db0 msg c',
        Queue.claim q' v' now tok db0 = Ok (Some msg, c') ->
        exists d, In d (coll db0 (_col q')) /\ claimable now d = true
          /\ _id msg = _id d
          /\ forall x, In x (coll db0 (_col q')) -> claimable now x = true ->
               (_id d <= _id x)%nat).
Proof.
  intros s v Hempty Hretry Hlen Hturns Hund Hnd got.
  assert (got = imap (fun k p => Some {| Msg.id := (next_oid db + k)%nat;
                                 Msg.ack := option_map (fun t => _ack (turn_env t) 0%nat)
                                              (turns !! k);
                                 Msg.payload := p; Msg.tries := 1 |}) items) as Hgot.
  { subst got. apply (consume_fifo q visibility fuel (t0 + s * 1000) Hretry
                        items turns [] (next_oid db)); try assumption.
    - pose proof (add_colls q t0 (JArr items) delay db) as H. cbv zeta in H.
      destruct H as (Hc & _). now rewrite Hc, Hempty.
    - intros x []. }
  split; [exact Hgot|]. rewrite Hgot. split; [|split].
  - now apply ids_of_imap.
  - now apply payloads_of_imap.
  - intros q' v' now tok db0 msg c' C. unfold Queue.claim in C.
    destruct (findOneAndUpdate_found _ _ _ _ _ _ C)
      as (pre & d & post & Hc & Hd & Hm & _ & _ & _ & Hmin & _).
    exists d. rewrite Hc. split; [apply in_or_app; right; now left|].
    split; [exact Hd|]. split; [now rewrite Hm|].
    rewrite <- Hc. now apply Hmin.
Qed.

Lemma sequential_gets_witness :
  consume 1 plain_queue None two_turns
    (snd (Queue.add plain_queue 1000 (JArr [JStr "x"; JStr "y"]) None empty_db))
  = [Some {| Msg.id := 0; Msg.ack := Some "a"; Msg.payload := JStr "x"; Msg.tries := 1 |};
     Some {| Msg.id := 1; Msg.ack := Some "b"; Msg.payload := JStr "y"; Msg.tries := 1 |}].
Proof.
  apply (proj1 (sequential_gets_are_fifo plain_queue 1000 [JStr "x"; JStr "y"] None None
                  0%nat two_turns empty_db
                  eq_refl (or_introl eq_refl) eq_refl
                  ltac:(simpl; intros t [<-|[<-|[]]]; simpl; lia)
                  eq_refl
                  ltac:(apply NoDup_ListNoDup; simpl; repeat constructor; simpl;
                        intuition discriminate))).
Defined.

(** The same records through turns that do not acknowledge, the second
    [get] made while the first claim is outstanding. *)
Example sequential_gets_unacknowledged :
  map (option_map Msg.id)
    (consume 1 plain_queue None close_turns
       (snd (Queue.add plain_queue 1000 (JArr [JStr "x"; JStr "y"]) None empty_db)))
  = [Some 0%nat; Some 1%nat].
Proof. vm_compute. reflexivity. Qed.

(** C2, as stated, fails on a queue with a dead-letter queue and no retry
    allowed: the first [get] dead-letters both records, one recursive call
    each, and both [get]s return nothing. *)
Lemma sequential_gets_all_dead_lettered :
  consume 3 jobs_queue None fresh_turns
    (snd (Queue.add jobs_queue 1000 (JArr [JStr "x"; JStr "y"]) None empty_db))
  = [None; None]
  /\ undisturbed 1 fresh_turns = true
  /\ exists db1,
       Queue.get 3 jobs_queue None (at_time 1000)
         (snd (Queue.add jobs_queue 1000 (JArr [JStr "x"; JStr "y"]) None empty_db))
       = Some (Ok None, db1)
       /\ map _id (coll db1 "dead") = [0%nat; 1%nat].
Proof.
  split; [vm_compute; reflexivity|]. split; [reflexivity|].
  eexists. split; vm_compute; reflexivity.
Qed.

(** * Further properties of the queue *)

(** ** [get] as a sequence of rounds *)

Lemma get_get_run fuel : forall q visibility env db r db',
  Queue.get fuel q visibility env db = Some (r, db') ->
  get_run q (match visibility with Some s => s | None => _visibility q end) env db r db'.
Proof.
  induction fuel as [|fuel IH]; intros q visibility env db r db' H; [discriminate|].
  simpl in H.
  destruct (Queue.claim _ _ _ _ _) as [[[msg|] c']|e] eqn:C.
  - destruct (Queue.poisoned q msg) eqn:P.
    + destruct (Queue._moveToDLQ _ _ _ _) as [[[]|e] db2] eqn:M.
      * apply IH in H. simpl in H. exact (run_moves _ _ _ _ _ _ _ _ _ C P M H).
      * inversion H; subst. exact (run_move_refused _ _ _ _ _ _ _ _ C P M).
    + inversion H; subst. exact (run_returns _ _ _ _ _ _ C P).
  - inversion H; subst. exact (run_empty _ _ _ _ _ C).
  - inversion H; subst. exact (run_refused _ _ _ _ _ C).
Qed.

Section Evolves.

Lemma evolves_refl d : evolves d d.
Proof. unfold evolves. repeat split; auto. Qed.

Lemma evolves_trans d1 d2 d3 : evolves d1 d2 -> evolves d2 d3 -> evolves d1 d3.
Proof.
  intros (Hi & Hp & Ht & Ha & Hd) (Hi' & Hp' & Ht' & Ha' & Hd').
  unfold evolves. repeat split.
  - congruence.
  - congruence.
  - lia.
  - auto.
  - intros H. specialize (Hd H). subst d2. auto.
Qed.

Lemma coll_evolves_refl c : coll_evolves c c.
Proof. intros d Hd. exists d. split; [exact Hd | apply evolves_refl]. Qed.

Lemma coll_evolves_trans c1 c2 c3 :
  coll_evolves c1 c2 -> coll_evolves c2 c3 -> coll_evolves c1 c3.
Proof.
  intros H12 H23 d Hd. destruct (H12 d Hd) as (d2 & Hd2 & E12).
  destruct (H23 d2 Hd2) as (d3 & Hd3 & E23).
  exists d3. split; [exact Hd3 | exact (evolves_trans _ _ _ E12 E23)].
Qed.

Lemma coll_evolves_replace pre d d' post :
  evolves d d' -> coll_evolves (pre ++ d :: post) (pre ++ d' :: post).
Proof.
  intros E x Hx. apply in_app_or in Hx. destruct Hx as [Hx|[<-|Hx]].
  - exists x. split; [apply in_or_app; now left | apply evolves_refl].
  - exists d'. split; [apply in_or_app; right; now left | exact E].
  - exists x. split; [apply in_or_app; right; now right | apply evolves_refl].
Qed.

Lemma coll_evolves_app c l : coll_evolves c (c ++ l).
Proof.
  intros d Hd. exists d. split; [apply in_or_app; now left | apply evolves_refl].
Qed.

Lemma evolves_claimed now tok v d :
  claimable now d = true -> evolves d (claimed now tok v d).
Proof.
  intros H. apply claimable_true in H. destruct H as [Hdel _].
  unfold evolves. simpl. repeat split; try lia; try discriminate.
  intros Hn. now destruct Hn.
Qed.

Lemma evolves_set_deleted t d : deleted d = None -> evolves d (set_deleted_to t d).
Proof.
  intros Hdel. unfold evolves. simpl. repeat split; auto.
  intros Hn. now destruct Hn.
Qed.

Lemma evolves_set_visible w d : deleted d = None -> evolves d (set_visible_to w d).
Proof.
  intros Hdel. unfold evolves. simpl. repeat split; auto.
  intros Hn. now destruct Hn.
Qed.

End Evolves.

Lemma map_id_replace pre (d d' : Doc) post :
  _id d' = _id d -> map _id (pre ++ d' :: post) = map _id (pre ++ d :: post).
Proof. intros E. rewrite !map_app. simpl. now rewrite E. Qed.

Section GetRuns.

Variables (q : Queue) (v : Z).

(** What [get] leaves of the stores it touches: the source keeps its records
    in place, and every record of every collection is still there. *)
Lemma get_run_keeps env db r db' :
  get_run q v env db r db' ->
  NoDup (map _id (coll db (_col q))) ->
  map _id (coll db' (_col q)) = map _id (coll db (_col q))
  /\ forall name, coll_evolves (coll db name) (coll db' name).
Proof.
  induction 1 as [env db c' C|env db e C|env db msg c' C P|env db msg c' e db2 C P M
                  |env db msg c' db2 r db' C P M _ IH]; intros Hnd.
  - split; [reflexivity | intros; apply coll_evolves_refl].
  - split; [reflexivity | intros; apply coll_evolves_refl].
  - destruct (claim_found _ _ _ _ _ _ _ Hnd C) as (pre & d & post & Hc & Hd & _ & -> & -> & _).
    rewrite coll_set_coll_eq. split.
    + rewrite Hc. now apply map_id_replace.
    + intros name. destruct (String.eqb_spec (_col q) name) as [<-|Hne].
      * rewrite coll_set_coll_eq, Hc. apply coll_evolves_replace.
        now apply evolves_claimed.
      * rewrite coll_set_coll_ne by exact Hne. apply coll_evolves_refl.
  - apply moveToDLQ_Err in M. subst db2.
    destruct (claim_found _ _ _ _ _ _ _ Hnd C) as (pre & d & post & Hc & Hd & _ & -> & -> & _).
    rewrite coll_set_coll_eq. split.
    + rewrite Hc. now apply map_id_replace.
    + intros name. destruct (String.eqb_spec (_col q) name) as [<-|Hne].
      * rewrite coll_set_coll_eq, Hc. apply coll_evolves_replace.
        now apply evolves_claimed.
      * rewrite coll_set_coll_ne by exact Hne. apply coll_evolves_refl.
  - apply poisoned_true in P. destruct P as [[dq Hdq] _].
    destruct (poison_round _ _ _ _ _ _ _ _ _ Hnd Hdq C M)
      as (pre & d & post & Hc & Hd & _ & Hm & Hne & Hc2 & Hcd & Hother & _).
    assert (map _id (coll db2 (_col q)) = map _id (coll db (_col q))) as Hids.
    { rewrite Hc2, Hc. apply poison_round_ids. now rewrite Hm. }
    destruct IH as [IH1 IH2]; [now rewrite Hids|].
    split; [now rewrite IH1|].
    intros name. apply coll_evolves_trans with (coll db2 name); [|apply IH2].
    destruct (String.eqb_spec name (_col q)) as [->|Hn1];
      [|destruct (String.eqb_spec name (_col dq)) as [->|Hn2]].
    + rewrite Hc2, Hc. apply coll_evolves_replace.
      apply evolves_trans with msg.
      * rewrite Hm. now apply evolves_claimed.
      * apply evolves_set_deleted. rewrite Hm. simpl.
        apply claimable_true in Hd. tauto.
    + rewrite Hcd. apply coll_evolves_app.
    + rewrite Hother by assumption. apply coll_evolves_refl.
Qed.

(** The message [get] returns is the record it left in the store. *)
Lemma get_run_result_stored env db r db' :
  get_run q v env db r db' ->
  NoDup (map _id (coll db (_col q))) ->
  forall m, r = Ok (Some m) ->
  exists d k,
    In d (coll db' (_col q)) /\ Queue.to_msg d = m /\ deleted d = None
    /\ visible d = _now env k + v * 1000 /\ ack d = Some (_ack env k).
Proof.
  induction 1 as [env db c' C|env db e C|env db msg c' C P|env db msg c' e db2 C P M
                  |env db msg c' db2 r db' C P M _ IH]; intros Hnd m Hr;
    try discriminate.
  - inversion Hr; subst m. clear Hr.
    destruct (claim_found _ _ _ _ _ _ _ Hnd C) as (pre & d & post & Hc & Hd & _ & -> & -> & _).
    exists (claimed (_now env 0%nat) (_ack env 0%nat) v d), 0%nat.
    rewrite coll_set_coll_eq. split; [apply in_or_app; right; now left|].
    apply claimable_true in Hd. simpl. tauto.
  - apply poisoned_true in P. destruct P as [[dq Hdq] _].
    destruct (poison_round _ _ _ _ _ _ _ _ _ Hnd Hdq C M)
      as (pre & d & post & Hc & Hd & _ & Hm & Hne & Hc2 & _).
    destruct (IH) with (m := m) as (d' & k & H1 & H2 & H3 & H4 & H5); [|exact Hr|].
    + rewrite Hc2. rewrite (poison_round_ids pre d post); [now rewrite <- Hc|].
      now rewrite Hm.
    + exists d', (S k). now repeat split.
Qed.

(** A record that is not claimable at any clock reading of the call is not
    the one [get] returns. *)
Lemma get_run_skips_hidden i env db r db' :
  get_run q v env db r db' ->
  NoDup (map _id (coll db (_col q))) ->
  (forall x, In x (coll db (_col q)) -> _id x = i ->
     forall k, claimable (_now env k) x = false) ->
  forall m, r = Ok (Some m) -> Msg.id m <> i.
Proof.
  induction 1 as [env db c' C|env db e C|env db msg c' C P|env db msg c' e db2 C P M
                  |env db msg c' db2 r db' C P M _ IH]; intros Hnd Hhid m Hr;
    try discriminate.
  - inversion Hr; subst m. clear Hr.
    destruct (claim_found _ _ _ _ _ _ _ Hnd C) as (pre & d & post & Hc & Hd & _ & -> & -> & _).
    simpl. intros E. rewrite (Hhid d) in Hd; [discriminate| |exact E].
    rewrite Hc. apply in_or_app. right. now left.
  - apply poisoned_true in P. destruct P as [[dq Hdq] _].
    destruct (poison_round _ _ _ _ _ _ _ _ _ Hnd Hdq C M)
      as (pre & d & post & Hc & Hd & _ & Hm & Hne & Hc2 & _).
    apply IH; [| |exact Hr].
    + rewrite Hc2. rewrite (poison_round_ids pre d post); [now rewrite <- Hc|].
      now rewrite Hm.
    + intros x Hx Hi k. rewrite Hc2 in Hx.
      apply in_app_or in Hx. destruct Hx as [Hx|[<-|Hx]].
      * apply (Hhid x); [rewrite Hc; apply in_or_app; now left | exact Hi].
      * apply claimable_set_deleted.
      * apply (Hhid x); [rewrite Hc; apply in_or_app; right; now right | exact Hi].
Qed.

End GetRuns.

(** ** Acknowledge, read alone *)

(** [ack] succeeds exactly when a record holds the token, is still invisible
    and is not deleted; it then writes [deleted = now] on that record,
    returns its id and touches nothing else.  Otherwise it fails with the
    unknown-ack error and the store is unchanged. *)
Theorem ack_iff_owned q now tok db :
  let c := coll db (_col q) in
  let r := Queue.ack q now tok db in
  ((exists d, In d c /\ ack d = Some tok /\ now < visible d /\ deleted d = None)
     <-> exists i, fst r = Ok i)
  /\ (forall i, fst r = Ok i ->
        exists pre d post,
          c = pre ++ d :: post /\ _id d = i
          /\ ack d = Some tok /\ now < visible d /\ deleted d = None
          /\ snd r = set_coll (_col q)
                       (pre ++ mkDoc (_id d) (payload d) (visible d) (tries d)
                                 (ack d) (Some now) :: post) db)
  /\ ((forall d, In d c -> ~ (ack d = Some tok /\ now < visible d /\ deleted d = None)) ->
        r = (Err UnknownAck, db)).
Proof.
  intros c r. subst c r.
  destruct (Queue.ack q now tok db) as [[i|e] db'] eqn:A; simpl.
  - destruct (ack_Ok _ _ _ _ _ _ A) as (pre & d & post & Hc & Hi & Ho & Hpre & ->).
    pose proof (proj1 (owned_true _ _ _) Ho) as (Ha & Hv & Hd).
    split; [|split].
    + split; [intros _; now exists i|]. intros _. exists d. rewrite Hc.
      split; [apply in_or_app; right; now left | now repeat split].
    + intros i' Hi'. inversion Hi'; subst i'. exists pre, d, post.
      now repeat split.
    + intros Hno. exfalso. apply (Hno d); [|now repeat split].
      rewrite Hc. apply in_or_app. right. now left.
  - destruct (ack_Err _ _ _ _ _ _ A) as (-> & -> & Hno).
    split; [|split].
    + split; [|intros [i Hi]; discriminate].
      intros (d & Hin & Ha & Hv & Hd). exfalso.
      specialize (Hno d Hin). assert (owned tok now d = true) by now apply owned_true.
      congruence.
    + intros i Hi. discriminate.
    + reflexivity.
Qed.

(** ** One owner per token *)

Lemma count_has_ack_le_1 tok c :
  NoDup (omap ack c) -> (Collection.countDocuments (has_ack tok) c <= 1)%nat.
Proof.
  unfold Collection.countDocuments.
  induction c as [|x c IH]; intros H; [simpl; lia|].
  rewrite omap_ack_cons in H. cbn [List.filter]. destruct (has_ack tok x) eqn:E.
  - apply has_ack_true in E. rewrite E in H. apply NoDup_cons in H.
    destruct H as [Hnot Hc]. simpl.
    assert (List.filter (has_ack tok) c = []) as ->; [|simpl; lia].
    apply filter_none. intros y Hy. apply has_ack_false. intros Hy'.
    apply Hnot. now apply in_omap_ack with y.
  - apply IH. destruct (ack x); [now apply NoDup_cons in H | exact H].
Qed.

Lemma countDocuments_le (p p' : Doc -> bool) c :
  (forall x, p x = true -> p' x = true) ->
  (Collection.countDocuments p c <= Collection.countDocuments p' c)%nat.
Proof.
  intros H. unfold Collection.countDocuments.
  induction c as [|x c IH]; simpl; [lia|].
  destruct (p x) eqn:E.
  - rewrite (H x E). simpl. lia.
  - destruct (p' x); simpl; lia.
Qed.

(** In every reachable store a token has at most one owner at any instant:
    the query of [ping] and [ack] matches at most one record. *)
Theorem at_most_one_owner db :
  reachable db ->
  forall name tok now,
    (Collection.countDocuments (owned tok now) (coll db name) <= 1)%nat.
Proof.
  intros Hr name tok now.
  pose proof (wf_acks _ _ (reachable_wf db Hr name)) as Hacks.
  apply Nat.le_trans with (Collection.countDocuments (has_ack tok) (coll db name)).
  - apply countDocuments_le. intros x Hx. unfold owned in Hx.
    apply andb_true_iff in Hx. destruct Hx as [Hx _].
    apply andb_true_iff in Hx. tauto.
  - now apply count_has_ack_le_1.
Qed.

(** The store of the scenario of [acked_ops] after the claim. *)
Lemma claimed_db_run :
  run [OpAdd plain_queue 1000 (JStr "job1") None;
       OpGet 1 plain_queue None (at_time 1000)] empty_db = Some claimed_db.
Proof. vm_compute. reflexivity. Qed.

Lemma claimed_db_reachable : reachable claimed_db.
Proof. exact (run_reachable _ _ _ reach_empty claimed_db_run). Qed.

Lemma at_most_one_owner_witness :
  (Collection.countDocuments (owned "a" 1500) (coll claimed_db "jobs") <= 1)%nat.
Proof. exact (at_most_one_owner claimed_db claimed_db_reachable "jobs" "a" 1500). Defined.

(** ** The counters *)

(** At any instant every record is counted by exactly one of [size],
    [inFlight] and [done], or it was added with a delay that has not elapsed
    and has never been claimed. *)
Theorem counters_partition q now db :
  Queue.total q db
  = (Queue.size q now db + Queue.inFlight q now db + Queue.done q db
     + Collection.countDocuments (delayed now) (coll db (_col q)))%nat.
Proof.
  unfold Queue.total, Queue.size, Queue.inFlight, Queue.done,
    Collection.estimatedDocumentCount, Collection.countDocuments.
  induction (coll db (_col q)) as [|x c IH]; simpl; [reflexivity|].
  unfold claimable at 1, in_flight at 1, is_deleted at 1, delayed at 1.
  destruct (deleted x); simpl.
  - rewrite !andb_false_r. simpl. lia.
  - rewrite !andb_true_r. destruct (Z.leb_spec (visible x) now) as [Hle|Hgt].
    + assert ((now <? visible x) = false) as -> by (apply Z.ltb_ge; lia).
      rewrite !andb_false_r. simpl. lia.
    + assert ((now <? visible x) = true) as -> by (apply Z.ltb_lt; lia).
      rewrite !andb_true_r. destruct (ack x); simpl; lia.
Qed.

(** ** No record is lost *)

Lemma coll_evolves_filter_or p c d :
  In d c -> (exists d', In d' (List.filter p c) /\ evolves d d') \/ p d = false.
Proof.
  intros Hd. destruct (p d) eqn:E; [left|now right].
  exists d. split; [apply filter_In; now split | apply evolves_refl].
Qed.

(** Whatever a client calls, each record stays in its collection with its
    [_id] and payload, [tries] does not go down, a token is never taken
    away, and a record with [deleted] set is left exactly as it is.  The only
    records that disappear are deleted ones that the TTL monitor purges. *)
Theorem no_call_loses_a_record op db db' :
  wf db -> exec op db = Some db' ->
  forall name d, In d (coll db name) ->
    (exists d', In d' (coll db' name)
       /\ _id d' = _id d /\ payload d' = payload d /\ (tries d <= tries d')%nat
       /\ (ack d <> None -> ack d' <> None)
       /\ (deleted d <> None -> d' = d))
    \/ (exists now, op = OpPurge name now /\ expired now d = true).
Proof.
  intros Hwf Hop name d Hd.
  assert (coll_evolves (coll db name) (coll db' name) ->
          exists d', In d' (coll db' name) /\ evolves d d') as Hleft by (intros H; now apply H).
  destruct op as [q now p dl|fuel q v env|q now tok v|q now tok|name' now];
    cbn [exec] in Hop.
  - left. apply Hleft. apply (inj Some) in Hop; subst db'.
    pose proof (add_colls q now p dl db) as H. cbv zeta in H. destruct H as (Hc & Hother & _).
    destruct (String.eqb_spec name (_col q)) as [->|Hne].
    + rewrite Hc. apply coll_evolves_app.
    + rewrite Hother by exact Hne. apply coll_evolves_refl.
  - left. apply Hleft.
    destruct (Queue.get fuel q v env db) as [[r db'']|] eqn:G; [|discriminate].
    apply (inj Some) in Hop; subst db'. apply get_get_run in G.
    exact (proj2 (get_run_keeps _ _ _ _ _ _ G (wf_ids _ _ (Hwf (_col q)))) name).
  - left. apply Hleft. apply (inj Some) in Hop; subst db'.
    destruct (Queue.ping q now tok v db) as [[i|e] db1] eqn:P; simpl.
    + destruct (ping_Ok _ _ _ _ _ _ _ P) as (pre & d0 & post & Hc & _ & Ho & _ & ->).
      apply owned_true in Ho. destruct Ho as (_ & _ & Hdel).
      destruct (String.eqb_spec (_col q) name) as [<-|Hne].
      * rewrite coll_set_coll_eq, Hc. apply coll_evolves_replace.
        now apply evolves_set_visible.
      * rewrite coll_set_coll_ne by exact Hne. apply coll_evolves_refl.
    + destruct (ping_Err _ _ _ _ _ _ _ P) as (_ & -> & _). apply coll_evolves_refl.
  - left. apply Hleft. apply (inj Some) in Hop; subst db'.
    destruct (Queue.ack q now tok db) as [[i|e] db1] eqn:A; simpl.
    + destruct (ack_Ok _ _ _ _ _ _ A) as (pre & d0 & post & Hc & _ & Ho & _ & ->).
      apply owned_true in Ho. destruct Ho as (_ & _ & Hdel).
      destruct (String.eqb_spec (_col q) name) as [<-|Hne].
      * rewrite coll_set_coll_eq, Hc. apply coll_evolves_replace.
        now apply evolves_set_deleted.
      * rewrite coll_set_coll_ne by exact Hne. apply coll_evolves_refl.
    + destruct (ack_Err _ _ _ _ _ _ A) as (_ & -> & _). apply coll_evolves_refl.
  - apply (inj Some) in Hop; subst db'. unfold ttl_purge.
    destruct (String.eqb_spec name' name) as [->|Hne].
    + rewrite coll_set_coll_eq.
      destruct (coll_evolves_filter_or (fun x => negb (expired now x)) _ d Hd) as [H|H].
      * now left.
      * right. exists now. split; [reflexivity|]. now apply negb_false_iff in H.
    + left. apply Hleft. unfold ttl_purge. rewrite coll_set_coll_ne by exact Hne.
      apply coll_evolves_refl.
Qed.

Lemma no_call_loses_a_record_witness :
  (exists d', In d' (coll acked_db "jobs")
     /\ _id d' = 0%nat /\ payload d' = JStr "job1" /\ (1 <= tries d')%nat
     /\ (Some "a" <> None -> ack d' <> None)
     /\ (@None Time <> None -> d' = mkDoc 0 (JStr "job1") 31000 1 (Some "a") None))
  \/ (exists now, OpAck plain_queue 1500 "a" = OpPurge "jobs" now
        /\ expired now (mkDoc 0 (JStr "job1") 31000 1 (Some "a") None) = true).
Proof.
  apply (no_call_loses_a_record (OpAck plain_queue 1500 "a") claimed_db acked_db
           (reachable_wf _ claimed_db_reachable) ltac:(vm_compute; reflexivity)
           "jobs" (mkDoc 0 (JStr "job1") 31000 1 (Some "a") None)).
  unfold claimed_db. rewrite coll_set_coll_eq. now left.
Defined.

(** ** The lock window *)

Lemma ping_at q a tok visibility db pre d post :
  coll db (_col q) = pre ++ d :: post ->
  (forall x, In x (pre ++ post) -> ack x <> Some tok) ->
  Queue.ping q a tok visibility db
  = if owned tok a d
    then (Ok (_id d),
          set_coll (_col q)
            (pre ++ set_visible_to
               (_plusSecs a (match visibility with Some s => s | None => _visibility q end))
               d :: post) db)
    else (Err UnknownAck, db).
Proof.
  intros Hc Hfree.
  assert (forall x, In x pre -> owned tok a x = false) as Hpre.
  { intros x Hx. apply owned_without_token, Hfree, in_or_app. now left. }
  assert (forall x, In x post -> owned tok a x = false) as Hpost.
  { intros x Hx. apply owned_without_token, Hfree, in_or_app. now right. }
  unfold Queue.ping, Collection.findOneAndUpdate, Collection.pick. rewrite Hc.
  rewrite (find_skip _ _ _ Hpre). cbn [List.find].
  destruct (owned tok a d) eqn:O.
  - unfold Collection.ack_taken. cbn [set_ack]. rewrite apply_set_visible. do 2 f_equal.
    rewrite (update_first_ext _ _ (set_visible_to (_plusSecs a
               (match visibility with Some s => s | None => _visibility q end))))
      by apply apply_set_visible.
    apply update_first_split.
    + rewrite O. now apply has_id_true.
    + intros x Hx. now rewrite (Hpre x Hx).
  - now rewrite (find_none_all _ _ Hpost).
Qed.

Lemma countDocuments_pos p c d :
  In d c -> p d = true -> (1 <= Collection.countDocuments p c)%nat.
Proof.
  intros Hd Hp. apply in_split in Hd. destruct Hd as (pre & post & ->).
  rewrite countDocuments_split, Hp. lia.
Qed.

(** A record that holds a token owns the claim up to its [visible] date, and
    not from then on. *)
Lemma lock_window q db d tok :
  NoDup (map _id (coll db (_col q))) ->
  NoDup (omap ack (coll db (_col q))) ->
  In d (coll db (_col q)) -> ack d = Some tok -> deleted d = None ->
  (forall a visibility, a < visible d ->
     fst (Queue.ack q a tok db) = Ok (_id d)
     /\ fst (Queue.ping q a tok visibility db) = Ok (_id d))
  /\ (forall a visibility, visible d <= a ->
        Queue.ack q a tok db = (Err UnknownAck, db)
        /\ Queue.ping q a tok visibility db = (Err UnknownAck, db)
        /\ (1 <= Queue.size q a db)%nat)
  /\ (forall fuel visibility env m db2,
        (forall k, _now env k < visible d) ->
        Queue.get fuel q visibility env db = Some (Ok (Some m), db2) ->
        Msg.id m <> _id d).
Proof.
  intros Hids Hacks Hd Ha Hdel.
  destruct (in_split _ _ Hd) as (pre & post & Hc).
  rewrite Hc in Hacks. pose proof (wf_acks_split _ _ _ _ Hacks Ha) as Hfree.
  split; [|split].
  - intros a visibility Hlt.
    assert (owned tok a d = true) as O by (apply owned_true; now repeat split).
    rewrite (ack_at q a tok db pre d post Hc Hfree), O.
    rewrite (ping_at q a tok visibility db pre d post Hc Hfree), O. now split.
  - intros a visibility Hge.
    assert (owned tok a d = false) as O.
    { destruct (owned tok a d) eqn:O; [|reflexivity].
      apply owned_true in O. lia. }
    rewrite (ack_at q a tok db pre d post Hc Hfree), O.
    rewrite (ping_at q a tok visibility db pre d post Hc Hfree), O.
    repeat split. apply countDocuments_pos with d; [exact Hd|].
    apply claimable_true. now split.
  - intros fuel visibility env m db2 Hbefore G. apply get_get_run in G.
    apply (get_run_skips_hidden _ _ (_id d) _ _ _ _ G Hids); [|reflexivity].
    intros x Hx Hi k. rewrite Hc in Hx, Hids.
    assert (x = d) as ->.
    { apply in_app_or in Hx. destruct Hx as [Hx|[<-|Hx]]; [|reflexivity|].
      - destruct (NoDup_ids_others _ _ _ Hids x); [apply in_or_app; now left | exact Hi].
      - destruct (NoDup_ids_others _ _ _ Hids x); [apply in_or_app; now right | exact Hi]. }
    apply claimable_false. right. apply Hbefore.
Qed.

(** After [get] has returned a message there is a deadline, the clock
    reading of the claim plus the visibility: before it the token
    acknowledges and extends the claim and no [get] returns the record
    again; from it on the token is refused as unknown and the record is
    claimable.  A claim taken with a visibility of zero or less is lost at
    once. *)
Theorem get_lock_window fuel q visibility env db m db1 :
  let v := match visibility with Some s => s | None => _visibility q end in
  wf db ->
  Queue.get fuel q visibility env db = Some (Ok (Some m), db1) ->
  exists k,
    let tok := _ack env k in
    let w := _now env k + v * 1000 in
    Msg.ack m = Some tok
    /\ (forall a visibility', a < w ->
          fst (Queue.ack q a tok db1) = Ok (Msg.id m)
          /\ fst (Queue.ping q a tok visibility' db1) = Ok (Msg.id m))
    /\ (forall a visibility', w <= a ->
          Queue.ack q a tok db1 = (Err UnknownAck, db1)
          /\ Queue.ping q a tok visibility' db1 = (Err UnknownAck, db1)
          /\ (1 <= Queue.size q a db1)%nat)
    /\ (forall fuel2 visibility2 env2 m2 db2,
          (forall j, _now env2 j < w) ->
          Queue.get fuel2 q visibility2 env2 db1 = Some (Ok (Some m2), db2) ->
          Msg.id m2 <> Msg.id m).
Proof.
  intros v Hwf G. pose proof (wf_get _ _ _ _ _ _ _ Hwf G (_col q)) as Hwf1.
  pose proof (get_get_run _ _ _ _ _ _ _ G) as R. fold v in R.
  destruct (get_run_result_stored _ _ _ _ _ _ R (wf_ids _ _ (Hwf (_col q))) m eq_refl)
    as (d & k & Hd & Hm & Hdel & Hvis & Hack).
  exists k. cbv zeta.
  destruct (lock_window q db1 d (_ack env k) (wf_ids _ _ Hwf1) (wf_acks _ _ Hwf1)
              Hd Hack Hdel) as (H1 & H2 & H3).
  rewrite Hvis in H1, H2, H3. subst m. simpl.
  split; [exact Hack|]. split; [exact H1|]. split; [exact H2 | exact H3].
Qed.

Lemma get_lock_window_witness :
  exists k,
    Some "a" = Some (token_of k)
    /\ (forall a visibility', a < 1000 + 30 * 1000 ->
          fst (Queue.ack plain_queue a (token_of k) claimed_db) = Ok 0%nat
          /\ fst (Queue.ping plain_queue a (token_of k) visibility' claimed_db) = Ok 0%nat).
Proof.
  destruct (get_lock_window 1 plain_queue None (at_time 1000)
              (snd (Queue.add plain_queue 1000 (JStr "job1") None empty_db))
              (Msg.make 0 (Some "a") (JStr "job1") 1) claimed_db
              (wf_add _ _ _ _ _ wf_empty) ltac:(vm_compute; reflexivity))
    as (k & Hk & Hbefore & _).
  exists k. split; [exact Hk | exact Hbefore].
Defined.

(** After a successful [ping] the deadline is the time of the ping plus the
    visibility given, wherever it stood before: the token owns the record
    before that instant and not from it on. *)
Theorem ping_lock_window q now tok visibility db i db1 :
  let w := now + (match visibility with Some s => s | None => _visibility q end) * 1000 in
  wf db ->
  Queue.ping q now tok visibility db = (Ok i, db1) ->
  (forall a visibility', a < w ->
     fst (Queue.ack q a tok db1) = Ok i
     /\ fst (Queue.ping q a tok visibility' db1) = Ok i)
  /\ (forall a visibility', w <= a ->
        Queue.ack q a tok db1 = (Err UnknownAck, db1)
        /\ Queue.ping q a tok visibility' db1 = (Err UnknownAck, db1)
        /\ (1 <= Queue.size q a db1)%nat)
  /\ (forall fuel2 visibility2 env2 m2 db2,
        (forall j, _now env2 j < w) ->
        Queue.get fuel2 q visibility2 env2 db1 = Some (Ok (Some m2), db2) ->
        Msg.id m2 <> i).
Proof.
  intros w Hwf P.
  assert (wf db1) as Hwf1.
  { pose proof (wf_ping q now tok visibility db Hwf) as H. now rewrite P in H. }
  destruct (ping_Ok _ _ _ _ _ _ _ P) as (pre & d & post & Hc & Hi & Ho & _ & ->).
  apply owned_true in Ho. destruct Ho as (Ha & _ & Hdel).
  set (d1 := set_visible_to _ d) in *.
  assert (In d1 (coll (set_coll (_col q) (pre ++ d1 :: post) db) (_col q))) as Hd1.
  { rewrite coll_set_coll_eq. apply in_or_app. right. now left. }
  destruct (lock_window q _ d1 tok (wf_ids _ _ (Hwf1 (_col q))) (wf_acks _ _ (Hwf1 (_col q)))
              Hd1 Ha Hdel) as (H1 & H2 & H3).
  subst i. split; [exact H1|]. split; [exact H2 | exact H3].
Qed.

Lemma ping_lock_window_witness :
  Queue.ack plain_queue 1500 "a" released_db = (Err UnknownAck, released_db)
  /\ Queue.ping plain_queue 1500 "a" None released_db = (Err UnknownAck, released_db)
  /\ (1 <= Queue.size plain_queue 1500 released_db)%nat.
Proof.
  apply (proj1 (proj2 (ping_lock_window plain_queue 1500 "a" (Some 0) claimed_db 0%nat
                         released_db (reachable_wf _ claimed_db_reachable)
                         ltac:(vm_compute; reflexivity))) 1500 None).
  simpl. lia.
Defined.

(** ** [get] without a dead-letter queue *)

Lemma in_flight_claimed now tok v d :
  0 < v -> deleted d = None -> in_flight now (claimed now tok v d) = true.
Proof.
  intros Hv Hdel. unfold in_flight. simpl. rewrite Hdel, andb_true_r.
  apply Z.ltb_lt. lia.
Qed.

Lemma claimable_claimed now tok v d :
  0 < v -> claimable now (claimed now tok v d) = false.
Proof. intros Hv. apply claimable_false. right. simpl. lia. Qed.

Lemma claimable_not_in_flight now d : claimable now d = true -> in_flight now d = false.
Proof.
  intros H. apply claimable_true in H. destruct H as [_ Hle].
  unfold in_flight. assert ((now <? visible d) = false) as -> by (apply Z.ltb_ge; lia).
  now rewrite andb_false_r.
Qed.

(** With no dead-letter queue [maxRetries] plays no part: [get] returns the
    earliest claimable record whatever its [tries], rewrites that record only,
    and moves it from [size] to [inFlight] when the visibility is positive;
    [total] and [done] do not change. *)
Theorem get_without_dead_queue fuel q visibility env db m db' :
  let v := match visibility with Some s => s | None => _visibility q end in
  let now := _now env 0%nat in
  let tok := _ack env 0%nat in
  _deadQueue q = None ->
  Queue.get fuel q visibility env db = Some (Ok (Some m), db') ->
  exists pre d post,
    coll db (_col q) = pre ++ d :: post
    /\ claimable now d = true
    /\ (forall x, In x (coll db (_col q)) -> claimable now x = true -> (_id d <= _id x)%nat)
    /\ m = {| Msg.id := _id d; Msg.ack := Some tok;
              Msg.payload := payload d; Msg.tries := S (tries d) |}
    /\ db' = set_coll (_col q)
               (pre ++ mkDoc (_id d) (payload d) (now + v * 1000) (S (tries d))
                         (Some tok) None :: post) db
    /\ Queue.total q db' = Queue.total q db
    /\ Queue.done q db' = Queue.done q db
    /\ (0 < v -> S (Queue.size q now db') = Queue.size q now db
                 /\ Queue.inFlight q now db' = S (Queue.inFlight q now db)).
Proof.
  intros v now tok Hdq G. destruct fuel as [|fuel]; [discriminate|].
  simpl in G. fold v now tok in G.
  destruct (Queue.claim q v now tok db) as [[[msg|] c']|e] eqn:C; try discriminate.
  assert (Queue.poisoned q msg = false) as P by (apply poisoned_false; now left).
  rewrite P in G. inversion G; subst m db'. clear G.
  unfold Queue.claim in C.
  destruct (findOneAndUpdate_found _ _ _ _ _ _ C)
    as (pre & d & post & Hc & Hd & Hm & -> & _ & _ & Hmin & _).
  rewrite apply_claim_update in Hm. subst msg.
  pose proof (proj1 (claimable_true _ _) Hd) as [Hdel _].
  exists pre, d, post. split; [exact Hc|]. split; [exact Hd|].
  split; [now apply Hmin|]. split; [reflexivity|].
  split; [unfold claimed; now rewrite Hdel|].
  unfold Queue.total, Queue.done, Queue.size, Queue.inFlight,
    Collection.estimatedDocumentCount.
  rewrite coll_set_coll_eq, Hc, !countDocuments_split, !length_app. cbn [length].
  assert (is_deleted (claimed now tok v d) = is_deleted d) as -> by reflexivity.
  split; [reflexivity|]. split; [reflexivity|].
  intros Hv. rewrite Hd.
  rewrite (claimable_claimed _ _ _ _ Hv), (in_flight_claimed _ _ _ _ Hv Hdel).
  rewrite (claimable_not_in_flight _ _ Hd). lia.
Qed.

Lemma get_without_dead_queue_witness :
  exists pre d post,
    coll worn_db "jobs" = pre ++ d :: post
    /\ Msg.make 0 (Some "a") (JStr "job1") 10
       = {| Msg.id := _id d; Msg.ack := Some "a";
            Msg.payload := payload d; Msg.tries := S (tries d) |}.
Proof.
  destruct (get_without_dead_queue 1 plain_queue None (at_time 5000) worn_db
              (Msg.make 0 (Some "a") (JStr "job1") 10) _
              eq_refl ltac:(vm_compute; reflexivity))
    as (pre & d & post & Hc & _ & _ & Hm & _).
  exists pre, d, post. split; [exact Hc | exact Hm].
Defined.

(** ** A dead-letter move that the store refuses *)

(** When the dead-letter collection already holds a record with the [_id] of
    the poisoned one (as it does when the dead-letter queue is the queue's own
    collection), the copy is refused: [get] fails with the duplicate-key
    error, nothing is marked deleted, and the record stays in the source with
    the claim just written on it. *)
Theorem dead_letter_move_refused fuel q dq visibility env db d :
  let v := match visibility with Some s => s | None => _visibility q end in
  let now := _now env 0%nat in
  let tok := _ack env 0%nat in
  _deadQueue q = Some dq ->
  Collection.pick true (claimable now) (coll db (_col q)) = Some d ->
  _maxRetries q < Z.of_nat (S (tries d)) ->
  (forall x, In x (coll db (_col q)) -> ack x = Some tok -> _id x = _id d) ->
  _col dq = _col q \/ (exists x, In x (coll db (_col dq)) /\ _id x = _id d) ->
  exists pre post,
    coll db (_col q) = pre ++ d :: post
    /\ Queue.get (S fuel) q visibility env db
       = Some (Err DuplicateKey,
               set_coll (_col q)
                 (pre ++ mkDoc (_id d) (payload d) (now + v * 1000) (S (tries d))
                           (Some tok) None :: post) db).
Proof.
  intros v now tok Hdq P Hmax Hfree Hdup.
  destruct (claim_picks q v now tok db d P Hfree) as [c' C].
  pose proof C as C0. unfold Queue.claim in C0.
  destruct (findOneAndUpdate_found _ _ _ _ _ _ C0)
    as (pre & d0 & post & Hc & Hd & _ & Hc' & P0 & _).
  assert (d0 = d) as -> by congruence.
  pose proof (proj1 (claimable_true _ _) Hd) as [Hdel _].
  set (msg := claimed now tok v d) in *.
  assert (Queue.poisoned q msg = true) as Pm.
  { apply poisoned_true. split; [now exists dq | exact Hmax]. }
  assert (Queue._moveToDLQ q now msg (set_coll (_col q) c' db)
          = (Err DuplicateKey, set_coll (_col q) c' db)) as M.
  { assert (existsb (has_id (_id msg)) (coll (set_coll (_col q) c' db) (_col dq)) = true)
      as Hex.
    { apply existsb_exists.
      destruct (String.eqb_spec (_col dq) (_col q)) as [E|Hne].
      - exists msg. rewrite E, coll_set_coll_eq, Hc'.
        split; [apply in_or_app; right; now left | now apply has_id_true].
      - destruct Hdup as [E|(x & Hx & Hi)]; [contradiction|].
        exists x. rewrite coll_set_coll_ne by congruence.
        split; [exact Hx | now apply has_id_true]. }
    unfold Queue._moveToDLQ. rewrite Hdq.
    assert (Queue.dlq_writes q dq now msg (set_coll (_col q) c' db)
            = (Err DuplicateKey, set_coll (_col q) c' db)) as W.
    { unfold Queue.dlq_writes, Collection.insertOne. now rewrite Hex. }
    destruct (_txnDLQ q); exact W. }
  exists pre, post. split; [exact Hc|].
  rewrite (get_round_move_refused q visibility env db fuel _ _ _ _ C Pm M).
  rewrite Hc'. unfold msg, claimed. now rewrite Hdel.
Qed.

Lemma dead_letter_move_refused_witness :
  exists pre post,
    coll jobs_db "jobs" = pre ++ mkDoc 0 (JStr "job1") 1000 0 None None :: post
    /\ Queue.get 1 self_dead_queue None (at_time 1000) jobs_db
       = Some (Err DuplicateKey,
               set_coll "jobs"
                 (pre ++ mkDoc 0 (JStr "job1") 2000 1 (Some "a") None :: post) jobs_db).
Proof.
  apply (dead_letter_move_refused 0 self_dead_queue (mkQueue "jobs" 30 0 None 5 false) None
           (at_time 1000) jobs_db (mkDoc 0 (JStr "job1") 1000 0 None None)).
  - reflexivity.
  - vm_compute. reflexivity.
  - simpl. lia.
  - intros x Hx _. vm_compute in Hx. destruct Hx as [<-|[]]. reflexivity.
  - now left.
Defined.

(** ** Skipping poisoned records *)

Lemma get_run_appends q v env db r db' :
  get_run q v env db r db' ->
  NoDup (map _id (coll db (_col q))) ->
  forall name, name <> _col q -> exists l, coll db' name = coll db name ++ l.
Proof.
  induction 1 as [env db c' C|env db e C|env db msg c' C P|env db msg c' e db2 C P M
                  |env db msg c' db2 r db' C P M _ IH]; intros Hnd name Hn.
  - exists []. now rewrite app_nil_r.
  - exists []. now rewrite app_nil_r.
  - exists []. rewrite app_nil_r. now rewrite coll_set_coll_ne by congruence.
  - apply moveToDLQ_Err in M. subst db2.
    exists []. rewrite app_nil_r. now rewrite coll_set_coll_ne by congruence.
  - apply poisoned_true in P. destruct P as [[dq Hdq] _].
    destruct (poison_round _ _ _ _ _ _ _ _ _ Hnd Hdq C M)
      as (pre & d & post & Hc & Hd & _ & Hm & Hne & Hc2 & Hcd & Hother & _).
    destruct (IH) with (name := name) as [l Hl]; [|exact Hn|].
    + rewrite Hc2. rewrite (poison_round_ids pre d post); [now rewrite <- Hc|].
      now rewrite Hm.
    + destruct (String.eqb_spec name (_col dq)) as [->|Hn2].
      * exists ([msg] ++ l). now rewrite Hl, Hcd, app_assoc.
      * exists l. now rewrite Hl, Hother.
Qed.

Lemma get_run_first_within_budget q v t env db r db' :
  get_run q v env db r db' ->
  (forall k, _now env k = t) ->
  NoDup (map _id (coll db (_col q))) ->
  forall m, r = Ok (Some m) ->
  exists d,
    In d (coll db (_col q)) /\ claimable t d = true
    /\ Msg.id m = _id d /\ Msg.payload m = payload d /\ Msg.tries m = S (tries d)
    /\ (_deadQueue q = None \/ Z.of_nat (S (tries d)) <= _maxRetries q)
    /\ forall x, In x (coll db (_col q)) -> claimable t x = true -> (_id x < _id d)%nat ->
         exists dq,
           _deadQueue q = Some dq /\ _maxRetries q < Z.of_nat (S (tries x))
           /\ (exists x', In x' (coll db' (_col q)) /\ _id x' = _id x /\ deleted x' = Some t)
           /\ (exists y, In y (coll db' (_col dq)) /\ _id y = _id x
                         /\ payload y = payload x /\ tries y = S (tries x)
                         /\ deleted y = None).
Proof.
  induction 1 as [env db c' C|env db e C|env db msg c' C P|env db msg c' e db2 C P M
                  |env db msg c' db2 r db' C P M R IH]; intros Ht Hnd m Hr;
    try discriminate.
  - inversion Hr; subst m. clear Hr. rewrite Ht in C.
    destruct (claim_found _ _ _ _ _ _ _ Hnd C)
      as (pre & d & post & Hc & Hd & Hmin & -> & -> & _).
    exists d. split; [rewrite Hc; apply in_or_app; right; now left|].
    split; [exact Hd|]. simpl. repeat split.
    + apply poisoned_false in P. exact P.
    + intros x Hx Hclx Hlt. specialize (Hmin x Hx Hclx). lia.
  - pose proof P as P0. apply poisoned_true in P. destruct P as [[dq Hdq] Hmax].
    destruct (poison_round _ _ _ _ _ _ _ _ _ Hnd Hdq C M)
      as (pre & d0 & post & Hc & Hd0 & _ & Hm & Hne & Hc2 & Hcd & Hother & _).
    rewrite Ht in Hd0, Hc2.
    assert (NoDup (map _id (coll db2 (_col q)))) as Hnd2.
    { rewrite Hc2. rewrite (poison_round_ids pre d0 post); [now rewrite <- Hc|].
      now rewrite Hm. }
    destruct (IH (fun k => Ht (S k)) Hnd2 m Hr)
      as (d & Hd & Hcl & Hid & Hpay & Htries & Hbudget & Hearlier).
    assert (In d (pre ++ post)) as Hd'.
    { rewrite Hc2 in Hd. apply in_app_or in Hd. apply in_or_app.
      destruct Hd as [Hd|[<-|Hd]]; [now left| |now right].
      rewrite claimable_set_deleted in Hcl. discriminate. }
    exists d. split; [rewrite Hc; apply in_app_or in Hd'; apply in_or_app; simpl; tauto|].
    split; [exact Hcl|]. split; [exact Hid|]. split; [exact Hpay|].
    split; [exact Htries|]. split; [exact Hbudget|].
    intros x Hx Hclx Hlt. rewrite Hc in Hx.
    assert (x = d0 \/ In x (pre ++ post)) as [->|Hx'].
    { apply in_app_or in Hx. destruct Hx as [Hx|[<-|Hx]];
        [right; apply in_or_app; now left | now left | right; apply in_or_app; now right]. }
    + exists dq. split; [exact Hdq|]. split; [now rewrite Hm in Hmax|]. split.
      * destruct (proj2 (get_run_keeps _ _ _ _ _ _ R Hnd2) (_col q)
                    (set_deleted_to t msg)) as (x' & Hx' & E).
        { rewrite Hc2. apply in_or_app. right. now left. }
        destruct E as (_ & _ & _ & _ & Efix).
        rewrite (Efix ltac:(discriminate)) in Hx'.
        exists (set_deleted_to t msg). split; [exact Hx'|]. rewrite Hm. now split.
      * destruct (get_run_appends _ _ _ _ _ _ R Hnd2 (_col dq) Hne) as [l Hl].
        exists msg. split; [rewrite Hl, Hcd; apply in_or_app; left; apply in_or_app; right;
                            now left|].
        rewrite Hm. simpl. apply claimable_true in Hd0. tauto.
    + apply Hearlier; [|exact Hclx|exact Hlt].
      rewrite Hc2. apply in_app_or in Hx'. apply in_or_app. simpl. tauto.
Qed.

(** When the clock reads [t] through the call, the message [get] returns is
    the earliest record claimable at [t] that is within the retry budget (or
    the earliest at all without a dead-letter queue), with [tries]
    incremented; every claimable record before it was over budget, is now
    marked deleted at [t] in the source and has its copy, with [tries]
    incremented and no [deleted], in the dead-letter collection. *)
Theorem get_returns_first_record_within_budget fuel q visibility t toks db m db' :
  NoDup (map _id (coll db (_col q))) ->
  Queue.get fuel q visibility (mkEnv (fun _ => t) toks) db = Some (Ok (Some m), db') ->
  exists d,
    In d (coll db (_col q)) /\ claimable t d = true
    /\ Msg.id m = _id d /\ Msg.payload m = payload d /\ Msg.tries m = S (tries d)
    /\ (_deadQueue q = None \/ Z.of_nat (S (tries d)) <= _maxRetries q)
    /\ forall x, In x (coll db (_col q)) -> claimable t x = true -> (_id x < _id d)%nat ->
         exists dq,
           _deadQueue q = Some dq /\ _maxRetries q < Z.of_nat (S (tries x))
           /\ (exists x', In x' (coll db' (_col q)) /\ _id x' = _id x /\ deleted x' = Some t)
           /\ (exists y, In y (coll db' (_col dq)) /\ _id y = _id x
                         /\ payload y = payload x /\ tries y = S (tries x)
                         /\ deleted y = None).
Proof.
  intros Hnd G. apply get_get_run in G.
  exact (get_run_first_within_budget _ _ t _ _ _ _ G (fun _ => eq_refl) Hnd m eq_refl).
Qed.

Lemma get_returns_first_within_budget_witness :
  exists d,
    In d (coll mixed_db "jobs") /\ claimable 5000 d = true
    /\ Msg.id (Msg.make 1 (Some "b") (JStr "good") 1) = _id d
    /\ forall x, In x (coll mixed_db "jobs") -> claimable 5000 x = true ->
         (_id x < _id d)%nat ->
         exists dq, _deadQueue retry_queue = Some dq
                    /\ _maxRetries retry_queue < Z.of_nat (S (tries x)).
Proof.
  destruct (get_returns_first_record_within_budget 2 retry_queue None 5000 token_of mixed_db
              (Msg.make 1 (Some "b") (JStr "good") 1) _
              ltac:(apply NoDup_ListNoDup; vm_compute; repeat constructor; simpl;
                    intuition discriminate)
              ltac:(vm_compute; reflexivity))
    as (d & Hd & Hcl & Hid & _ & _ & _ & Hearlier).
  exists d. split; [exact Hd|]. split; [exact Hcl|]. split; [exact Hid|].
  intros x Hx Hclx Hlt. destruct (Hearlier x Hx Hclx Hlt) as (dq & Hdq & Hmax & _).
  exists dq. now split.
Defined.

(** ** Scheduling *)

Lemma scheduleAt_unfold q now now' date payload delay db :
  Queue.scheduleAt q now now' date payload delay db
  = Queue.add q now' payload (Some (Z.max 0 ((date - now) / 1000))) db.
Proof. reflexivity. Qed.

Lemma scheduleAt_colls q now now' date payload delay db :
  let v := now' + Z.max 0 ((date - now) / 1000) * 1000 in
  coll (snd (Queue.scheduleAt q now now' date payload delay db)) (_col q)
  = coll db (_col q)
    ++ imap (fun k p => mkDoc (next_oid db + k) p v 0 None None) (_arr payload)
  /\ now' <= v
  /\ (date <= now -> v = now')
  /\ (now <= date -> v = date + (now' - now) - (date - now) mod 1000)
  /\ (now <= date -> date - 1000 + (now' - now) < v <= date + (now' - now))
  /\ (now <= date -> (date - now) mod 1000 < now' - now -> date < v)
  /\ fst (Queue.scheduleAt q now now' date payload delay db)
     = fst (Queue.add q now' payload None db).
Proof.
  intros v. subst v.
  rewrite scheduleAt_unfold.
  pose proof (add_colls q now' payload (Some (Z.max 0 ((date - now) / 1000))) db) as H.
  cbv zeta in H. destruct H as (Hc & _).
  split; [exact Hc|].
  pose proof (Z.div_mod (date - now) 1000 ltac:(lia)) as Hdm.
  pose proof (Z.mod_pos_bound (date - now) 1000 ltac:(lia)) as Hmod.
  split; [lia|]. split; [|split; [|split; [|split]]].
  - intros Hle. assert ((date - now) / 1000 <= 0) by (apply Z.div_le_upper_bound; lia). lia.
  - intros Hle. assert (0 <= (date - now) / 1000) by (apply Z.div_pos; lia). lia.
  - intros Hle. assert (0 <= (date - now) / 1000) by (apply Z.div_pos; lia). lia.
  - intros Hle Hlate. assert (0 <= (date - now) / 1000) by (apply Z.div_pos; lia). lia.
  - rewrite !add_unfold. now destruct (_arr payload).
Qed.

(** [scheduleAt] stores one record per payload.  Its [visible] is the second
    clock reading, the one [add] takes, plus the whole seconds between the
    first reading and the date: the date rounded down by less than a second
    and moved by the time that passed between the two readings, so it lies
    after the date when more time passed than the rounding took off; it
    is the second reading itself when the date is not in the future.
    Neither the queue's default delay nor a delay passed in the options
    takes part. *)
Theorem scheduleAt_visible q now now' date payload delay db :
  let v := now' + Z.max 0 ((date - now) / 1000) * 1000 in
  coll (snd (Queue.scheduleAt q now now' date payload delay db)) (_col q)
  = coll db (_col q)
    ++ imap (fun k p => mkDoc (next_oid db + k) p v 0 None None) (_arr payload)
  /\ now' <= v
  /\ (date <= now -> v = now')
  /\ (now <= date -> v = date + (now' - now) - (date - now) mod 1000)
  /\ (now <= date -> date - 1000 + (now' - now) < v <= date + (now' - now))
  /\ (now <= date -> (date - now) mod 1000 < now' - now -> date < v)
  /\ fst (Queue.scheduleAt q now now' date payload delay db)
     = fst (Queue.add q now' payload None db).
Proof. exact (scheduleAt_colls q now now' date payload delay db). Qed.

(** On an empty queue that does not dead-letter a first claim, a job
    scheduled for a date is handed out, with [tries = 1], exactly by a [get]
    whose clock has reached the [visible] date that was stored.  So, when the
    clock did not run backwards between the two readings of [scheduleAt], it
    is not handed out a second or more before the date; and it is handed out
    by a [get] that is later than the date by the time that passed between
    the two readings, and not earlier than the second one. *)
Theorem scheduleAt_then_get fuel q now now' date payload delay visibility env db :
  isArray payload = false ->
  coll db (_col q) = [] ->
  _deadQueue q = None \/ 1 <= _maxRetries q ->
  let db1 := snd (Queue.scheduleAt q now now' date payload delay db) in
  let v := now' + Z.max 0 ((date - now) / 1000) * 1000 in
  let returned :=
    exists db2,
      Queue.get (S fuel) q visibility env db1
      = Some (Ok (Some {| Msg.id := next_oid db; Msg.ack := Some (_ack env 0%nat);
                          Msg.payload := payload; Msg.tries := 1 |}), db2) in
  (_now env 0%nat < v -> Queue.get (S fuel) q visibility env db1 = Some (Ok None, db1))
  /\ (v <= _now env 0%nat -> returned)
  /\ (now <= now' -> now <= date -> _now env 0%nat <= date - 1000 ->
        Queue.get (S fuel) q visibility env db1 = Some (Ok None, db1))
  /\ (now' <= _now env 0%nat -> date + (now' - now) <= _now env 0%nat -> returned).
Proof.
  intros Harr Hempty Hretry db1 v returned.
  pose proof (scheduleAt_colls q now now' date payload delay db) as H. cbv zeta in H.
  destruct H as (Hc & Hnow & Hpast & _ & Hfuture & _).
  fold v in Hc, Hnow, Hpast, Hfuture.
  fold db1 in Hc. rewrite (arr_not_array _ Harr), Hempty in Hc. cbn [imap app] in Hc.
  rewrite Nat.add_0_r in Hc. set (d := mkDoc _ _ _ _ _ _) in Hc.
  assert (_now env 0%nat < v ->
          Queue.get (S fuel) q visibility env db1 = Some (Ok None, db1)) as Hhidden.
  { intros Hearly. apply get_no_claimable. rewrite Hc.
    intros x [<-|[]]. apply claimable_false. right. simpl. lia. }
  assert (v <= _now env 0%nat -> returned) as Hshown.
  { intros Hlate.
    assert (claimable (_now env 0%nat) d = true) as Hd.
    { apply claimable_true. split; [reflexivity|]. simpl. lia. }
    subst returned. eexists.
    rewrite (get_round_returns q visibility env db1 fuel _ _
               (claim_single q _ _ _ db1 d Hc Hd)).
    + reflexivity.
    + apply poisoned_false. destruct Hretry as [H|H]; [now left | right; simpl; lia]. }
  split; [exact Hhidden|]. split; [exact Hshown|]. split.
  - intros Hmono Hle Hearly. apply Hhidden. specialize (Hfuture Hle). lia.
  - intros Hafter Hlate. apply Hshown.
    destruct (Z.le_gt_cases date now) as [H|H]; [rewrite (Hpast H); lia|].
    specialize (Hfuture ltac:(lia)). lia.
Qed.

Lemma scheduleAt_then_get_witness :
  Queue.get 1 plain_queue None (at_time 3000)
    (snd (Queue.scheduleAt plain_queue 1000 1002 4500 (JStr "later") None empty_db))
  = Some (Ok None,
          snd (Queue.scheduleAt plain_queue 1000 1002 4500 (JStr "later") None empty_db)).
Proof.
  apply (proj1 (scheduleAt_then_get 0 plain_queue 1000 1002 4500 (JStr "later") None None
                  (at_time 3000) empty_db eq_refl eq_refl (or_introl eq_refl))).
  vm_compute. reflexivity.
Defined.

(** Two milliseconds between the two readings: the job scheduled for 3000 is
    stored with [visible = 3002], and a [get] at the date finds nothing. *)
Example scheduleAt_late_second_reading :
  coll (snd (Queue.scheduleAt plain_queue 1000 1002 3000 (JStr "later") None empty_db)) "jobs"
  = [mkDoc 0 (JStr "later") 3002 0 None None]
  /\ Queue.get 1 plain_queue None (at_time 3000)
       (snd (Queue.scheduleAt plain_queue 1000 1002 3000 (JStr "later") None empty_db))
     = Some (Ok None,
             snd (Queue.scheduleAt plain_queue 1000 1002 3000 (JStr "later") None empty_db)).
Proof. split; vm_compute; reflexivity. Qed.

(** [scheduleRecurring] stores exactly one record, the template that wraps
    the payload, and returns its single id, also when the payload is an
    array; on an empty queue that does not dead-letter a first claim the next
    [get] after the delay returns the template with the payload inside. *)
Theorem scheduleRecurring_stores_one_template
    fuel q created now cron payload delay visibility env db :
  coll db (_col q) = [] ->
  _deadQueue q = None \/ 1 <= _maxRetries q ->
  now + (match delay with Some s => s | None => _delay q end) * 1000 <= _now env 0%nat ->
  let template :=
    JObj [("originalPayload", payload);
          ("recurrence", JObj [("pattern", cron); ("createdAt", JNum created)])] in
  let r := Queue.scheduleRecurring q created now cron payload delay db in
  fst r = Ok (Id (next_oid db))
  /\ Queue.total q (snd r) = 1%nat
  /\ exists db2,
       Queue.get (S fuel) q visibility env (snd r)
       = Some (Ok (Some {| Msg.id := next_oid db; Msg.ack := Some (_ack env 0%nat);
                           Msg.payload := template; Msg.tries := 1 |}), db2).
Proof.
  intros Hempty Hretry Hvis template r. subst r. unfold Queue.scheduleRecurring.
  fold template.
  pose proof (add_colls q now template delay db) as H. cbv zeta in H.
  destruct H as (Hc & _).
  set (db1 := snd (Queue.add q now template delay db)) in *.
  rewrite Hempty in Hc. cbn [_arr template imap app] in Hc.
  unfold fresh_doc in Hc. rewrite Nat.add_0_r in Hc.
  set (d := mkDoc _ _ _ _ _ _) in Hc.
  split; [|split].
  - rewrite add_unfold. cbn [fst isArray template _arr imap]. now rewrite Nat.add_0_r.
  - unfold Queue.total. now rewrite Hc.
  - assert (claimable (_now env 0%nat) d = true) as Hd by (apply claimable_true; now split).
    eexists. rewrite (get_round_returns q visibility env db1 fuel _ _
                        (claim_single q _ _ _ db1 d Hc Hd)).
    + reflexivity.
    + apply poisoned_false. destruct Hretry as [H|H]; [now left | right; simpl; lia].
Qed.

Lemma scheduleRecurring_witness :
  fst (Queue.scheduleRecurring plain_queue 999 1000 (JStr "0 * * * *")
         (JArr [JStr "a"; JStr "b"]) None empty_db) = Ok (Id 0)
  /\ Queue.total plain_queue
       (snd (Queue.scheduleRecurring plain_queue 999 1000 (JStr "0 * * * *")
               (JArr [JStr "a"; JStr "b"]) None empty_db)) = 1%nat.
Proof.
  destruct (scheduleRecurring_stores_one_template 0 plain_queue 999 1000 (JStr "0 * * * *")
              (JArr [JStr "a"; JStr "b"]) None None (at_time 1000) empty_db
              eq_refl (or_introl eq_refl) ltac:(simpl; lia)) as (H1 & H2 & _).
  split; [exact H1 | exact H2].
Defined.

(** ** The counters after [add] *)

Lemma countDocuments_all (p : Doc -> bool) l :
  (forall x, In x l -> p x = true) -> Collection.countDocuments p l = length l.
Proof.
  unfold Collection.countDocuments. induction l as [|x l IH]; simpl; intros H; [reflexivity|].
  rewrite (H x (or_introl eq_refl)). simpl. f_equal. apply IH. intros y Hy. apply H. now right.
Qed.

Lemma countDocuments_none (p : Doc -> bool) l :
  (forall x, In x l -> p x = false) -> Collection.countDocuments p l = 0%nat.
Proof.
  intros H. unfold Collection.countDocuments. now rewrite (filter_none _ _ H).
Qed.

(** [add] raises [total] by the number of payloads at once; [size] counts the
    new records from their [visible] date on and not before; [inFlight] and
    [done] do not see them. *)
Theorem add_counters q now payload delay db :
  let v := now + (match delay with Some s => s | None => _delay q end) * 1000 in
  let n := length (_arr payload) in
  let db' := snd (Queue.add q now payload delay db) in
  Queue.total q db' = (Queue.total q db + n)%nat
  /\ Queue.done q db' = Queue.done q db
  /\ (forall t, Queue.inFlight q t db' = Queue.inFlight q t db)
  /\ (forall t, v <= t -> Queue.size q t db' = (Queue.size q t db + n)%nat)
  /\ (forall t, t < v -> Queue.size q t db' = Queue.size q t db).
Proof.
  intros v n db'. pose proof (add_colls q now payload delay db) as H. cbv zeta in H.
  destruct H as (Hc & _). fold v db' in Hc.
  unfold Queue.total, Queue.done, Queue.inFlight, Queue.size,
    Collection.estimatedDocumentCount.
  rewrite Hc, length_app, length_imap. fold n.
  split; [reflexivity|]. split; [|split; [|split]].
  - rewrite countDocuments_app, (countDocuments_none _ (imap _ _)); [lia|].
    intros x Hx. apply in_imap_fresh in Hx. destruct Hx as (_ & _ & _ & Hdel).
    unfold is_deleted. now rewrite Hdel.
  - intros t. rewrite countDocuments_app, (countDocuments_none _ (imap _ _)); [lia|].
    intros x Hx. apply in_imap_fresh in Hx. destruct Hx as (_ & _ & Hack & _).
    unfold in_flight. now rewrite Hack.
  - intros t Ht. rewrite countDocuments_app, (countDocuments_all _ (imap _ _)), length_imap; [reflexivity|].
    intros x Hx. apply in_imap_fresh in Hx. destruct Hx as (_ & Hvis & _ & Hdel).
    apply claimable_true. split; [exact Hdel | lia].
  - intros t Ht. rewrite countDocuments_app, (countDocuments_none _ (imap _ _)); [lia|].
    intros x Hx. apply in_imap_fresh in Hx. destruct Hx as (_ & Hvis & _ & _).
    apply claimable_false. right. lia.
Qed.

(** ** The retry budget *)

(** With a dead-letter queue configured, a message that [get] returns has
    [tries] at most [maxRetries]: a consumer sees a job at most [maxRetries]
    times, and the claim after that moves it to the dead-letter queue. *)
Theorem get_returns_within_budget fuel q dq visibility env db m db' :
  _deadQueue q = Some dq ->
  Queue.get fuel q visibility env db = Some (Ok (Some m), db') ->
  Z.of_nat (Msg.tries m) <= _maxRetries q /\ (1 <= Msg.tries m)%nat.
Proof.
  intros Hdq G. apply get_get_run in G.
  remember (Ok (Some m)) as r eqn:Hr.
  induction G as [env db c' C|env db e C|env db msg c' C P|env db msg c' e db2 C P M
                  |env db msg c' db2 r db' C P M _ IH]; try discriminate.
  - inversion Hr; subst m. simpl. split.
    + apply poisoned_false in P. destruct P as [P|P]; [congruence | exact P].
    + unfold Queue.claim in C.
      destruct (findOneAndUpdate_found _ _ _ _ _ _ C) as (pre & d & post & _ & _ & -> & _).
      rewrite apply_claim_update. simpl. lia.
  - now apply IH.
Qed.

Lemma get_returns_within_budget_witness :
  Z.of_nat (Msg.tries (Msg.make 1 (Some "b") (JStr "good") 1)) <= _maxRetries retry_queue
  /\ (1 <= Msg.tries (Msg.make 1 (Some "b") (JStr "good") 1))%nat.
Proof.
  exact (get_returns_within_budget 2 retry_queue dead_queue None (at_time 5000) mixed_db
           (Msg.make 1 (Some "b") (JStr "good") 1) _ eq_refl ltac:(vm_compute; reflexivity)).
Defined.

(** ** A token that is already taken *)

(** When the token drawn for a claim is held by another record of the
    collection, the unique index on [ack] refuses the update: [get] fails with
    the duplicate-key error and the store is left as it was, the claim
    included. *)
Theorem get_token_collision fuel q visibility env db d x :
  Collection.pick true (claimable (_now env 0%nat)) (coll db (_col q)) = Some d ->
  In x (coll db (_col q)) -> ack x = Some (_ack env 0%nat) -> _id x <> _id d ->
  Queue.get (S fuel) q visibility env db = Some (Err DuplicateKey, db).
Proof.
  intros P Hx Hack Hne. apply get_round_refused.
  unfold Queue.claim, Collection.findOneAndUpdate. rewrite P.
  assert (Collection.ack_taken
            (Queue.claim_update (_now env 0%nat) (_ack env 0%nat)
               (match visibility with Some s => s | None => _visibility q end))
            d (coll db (_col q)) = true) as ->; [|reflexivity].
  unfold Collection.ack_taken. simpl. apply existsb_exists. exists x.
  split; [exact Hx|]. apply andb_true_iff. split; [now apply has_ack_true|].
  apply negb_true_iff. now apply has_id_false.
Qed.

Lemma get_token_collision_witness :
  Queue.get 1 plain_queue None (mkEnv (fun _ => 5000) (fun _ => "q")) busy_db
  = Some (Err DuplicateKey, busy_db).
Proof.
  apply (get_token_collision 0 plain_queue None (mkEnv (fun _ => 5000) (fun _ => "q"))
           busy_db (mkDoc 0 (JStr "next") 1000 0 None None)
           (mkDoc 1 (JStr "held") 9000 1 (Some "q") None)).
  - vm_compute. reflexivity.
  - unfold busy_db. rewrite coll_set_coll_eq. right. now left.
  - reflexivity.
  - simpl. discriminate.
Defined.
